(** * Trivia Tiles: the word-validation hook and the progress value

    A shallow embedding of
    - [client/components/hooks/usePuzzleValidation.ts]
      (the dictionary cache, [getErrorType], [getErrorMessage],
      [fetchWithTimeout], [checkDictionaryAPI], [validateWord]), and
    - [client/components/AppContent.tsx]
      ([progress], [handleValidWord]).

    The hook is asynchronous.  JavaScript runs every piece of code between
    two [await]s to completion, so the hook is embedded as a transition
    system: one transition per task of the event loop (a call of
    [validateWord], the settlement of a [fetch], a timer), each followed by
    the promise continuations it makes runnable. *)

From Stdlib Require Import ZArith QArith String Ascii List Bool Lia DecimalString.
From stdpp Require Import base list.
Import ListNotations.

Local Open Scope string_scope.
Local Open Scope Z_scope.

(** ** JavaScript strings

    Strings are Rocq strings read over the ASCII repertoire; the functions
    below are [String.prototype.trim], [toLowerCase], [toUpperCase] and
    [includes] on that repertoire (characters above 127 are left alone). *)

Module Js.

(** White space and line terminators of ECMAScript below 128:
    TAB, LF, VT, FF, CR and SPACE. *)
Definition isWhiteSpace (c : ascii) : bool :=
  let n := nat_of_ascii c in
  ((9 <=? n)%nat && (n <=? 13)%nat) || (n =? 32)%nat.

Definition lowerChar (c : ascii) : ascii :=
  let n := nat_of_ascii c in
  if ((65 <=? n)%nat && (n <=? 90)%nat) then ascii_of_nat (n + 32) else c.

Definition upperChar (c : ascii) : ascii :=
  let n := nat_of_ascii c in
  if ((97 <=? n)%nat && (n <=? 122)%nat) then ascii_of_nat (n - 32) else c.

Fixpoint mapChars (f : ascii -> ascii) (s : string) : string :=
  match s with
  | EmptyString => EmptyString
  | String c r => String (f c) (mapChars f r)
  end.

Definition toLowerCase : string -> string := mapChars lowerChar.
Definition toUpperCase : string -> string := mapChars upperChar.

Fixpoint trimStart (s : string) : string :=
  match s with
  | EmptyString => EmptyString
  | String c r => if isWhiteSpace c then trimStart r else s
  end.

(** [trimEnd] drops the trailing white space: a character is kept when
    it is not white space or when something is kept after it. *)
Fixpoint trimEnd (s : string) : string :=
  match s with
  | EmptyString => EmptyString
  | String c r =>
      match trimEnd r with
      | EmptyString => if isWhiteSpace c then EmptyString else String c EmptyString
      | r' => String c r'
      end
  end.

Definition trim (s : string) : string := trimEnd (trimStart s).

Fixpoint startsWith (s sub : string) : bool :=
  match sub, s with
  | EmptyString, _ => true
  | String _ _, EmptyString => false
  | String a sub', String b s' => Ascii.eqb a b && startsWith s' sub'
  end.

(** [s.includes(sub)]: [sub] occurs at some position of [s]. *)
Fixpoint includes (s sub : string) : bool :=
  startsWith s sub ||
  match s with
  | EmptyString => false
  | String _ r => includes r sub
  end.

(** The length of a string, as the [number] JavaScript gives. *)
Definition length (s : string) : Z := Z.of_nat (String.length s).

(** The double-quote character, for the texts that quote a letter. *)
Definition quote : string := String (ascii_of_nat 34) EmptyString.

(** [`${n}`] for an integer [n]. *)
Definition ofNumber (n : Z) : string := NilZero.string_of_int (Z.to_int n).

End Js.

(** ** Errors, responses and configuration *)

(** [enum DictionaryErrorType]. *)
Inductive DictionaryErrorType : Set :=
| NETWORK_ERROR | API_RATE_LIMIT | API_UNAVAILABLE | WORD_NOT_FOUND
| INVALID_RESPONSE | TIMEOUT | UNKNOWN.

Definition DictionaryErrorType_eqb (a b : DictionaryErrorType) : bool :=
  match a, b with
  | NETWORK_ERROR, NETWORK_ERROR | API_RATE_LIMIT, API_RATE_LIMIT
  | API_UNAVAILABLE, API_UNAVAILABLE | WORD_NOT_FOUND, WORD_NOT_FOUND
  | INVALID_RESPONSE, INVALID_RESPONSE | TIMEOUT, TIMEOUT | UNKNOWN, UNKNOWN => true
  | _, _ => false
  end.

(** A thrown value.  [apiType] is [Some t] exactly for an instance of
    [class DictionaryAPIError], whose [type] is then [t]. *)
Record JsError : Set := {
  name : string;
  message : string;
  apiType : option DictionaryErrorType;
  statusCode : option Z
}.

(** [new DictionaryAPIError(type, message, statusCode)]. *)
Definition DictionaryAPIError (type : DictionaryErrorType) (msg : string)
    (code : option Z) : JsError :=
  {| name := "DictionaryAPIError"; message := msg; apiType := Some type; statusCode := code |}.

(** [new Error(msg)], [new TypeError(msg)]. *)
Definition Error (msg : string) : JsError :=
  {| name := "Error"; message := msg; apiType := None; statusCode := None |}.
Definition TypeError (msg : string) : JsError :=
  {| name := "TypeError"; message := msg; apiType := None; statusCode := None |}.

(** The reason of [controller.abort()] called without an argument: a
    DOMException named AbortError (text as in V8; no engine's text
    mentions a timeout). *)
Definition abortError : JsError :=
  {| name := "AbortError"; message := "signal is aborted without reason";
     apiType := None; statusCode := None |}.

(** What reading [error.name] throws when [error] is [null] (text as in
    V8; no engine's text mentions fetch). *)
Definition nullNameError : JsError :=
  TypeError "Cannot read properties of null (reading 'name')".

(** The result of evaluating an expression: a value or a throw. *)
Inductive Completion (A : Type) : Type :=
| Normal (a : A)
| Throw (e : JsError).
Arguments Normal {A} a.
Arguments Throw {A} e.

(** What [response.json()] gives, as far as the hook looks at it: not an
    array, or an array whose entries are given by their [word] property
    ([None] for an entry that has none). *)
Inductive JsonValue : Set :=
| NotArray
| JsonArray (data : list (option string)).

Record Response : Set := {
  ok : bool;
  status : Z;
  json : Completion JsonValue
}.

(** How the network settles a [fetch]. *)
Inductive NetOutcome : Set :=
| Rejects (e : JsError)
| Responds (r : Response).

(** [const API_CONFIG]. *)
Record ApiConfig : Set := {
  TIMEOUT_MS : Z;
  MAX_RETRIES : Z;
  RETRY_DELAY_MS : Z;
  CACHE_SIZE_LIMIT : Z;
  BASE_URL : string
}.

Definition API_CONFIG : ApiConfig :=
  {| TIMEOUT_MS := 5000;
     MAX_RETRIES := 2;
     RETRY_DELAY_MS := 1000;
     CACHE_SIZE_LIMIT := 1000;
     BASE_URL := "https://api.dictionaryapi.dev/api/v2/entries/en" |}.

(** [getErrorType(error, response)].  The first line reads [error.name],
    which throws when [error] is [null]. *)
Definition getErrorType (error : option JsError) (response : option Response)
    : Completion DictionaryErrorType :=
  match error with
  | None => Throw nullNameError
  | Some error =>
      if String.eqb (name error) "TypeError" && Js.includes (message error) "fetch"
      then Normal NETWORK_ERROR
      else if String.eqb (name error) "AbortError" && Js.includes (message error) "timeout"
      then Normal TIMEOUT
      else
        match response with
        | Some response =>
            if status response =? 429 then Normal API_RATE_LIMIT
            else if status response >=? 500 then Normal API_UNAVAILABLE
            else if status response =? 404 then Normal WORD_NOT_FOUND
            else Normal UNKNOWN
        | None => Normal UNKNOWN
        end
  end.

(** [getErrorMessage(errorType)]. *)
Definition getErrorMessage (errorType : DictionaryErrorType) : string :=
  match errorType with
  | NETWORK_ERROR => "No internet connection. Please check your network and try again."
  | API_RATE_LIMIT => "Too many requests. Please wait a moment and try again."
  | API_UNAVAILABLE => "Dictionary service is temporarily unavailable. Please try again later."
  | TIMEOUT => "Request timed out. Please try again."
  | WORD_NOT_FOUND => "Not a valid English word."
  | INVALID_RESPONSE => "Received invalid data. Please try again."
  | UNKNOWN => "Error validating word. Please try again."
  end.

(** The kinds [checkDictionaryAPI] retries. *)
Definition retryable (t : DictionaryErrorType) : bool :=
  existsb (DictionaryErrorType_eqb t) [NETWORK_ERROR; API_UNAVAILABLE; TIMEOUT].

(** ** The dictionary cache

    [const dictionaryCache = new Map<string, boolean>()]: a JavaScript
    [Map] keeps its keys in insertion order, and [set] on a key that is
    present changes the value in place. *)

Definition Cache : Set := list (string * bool).

Module Map.

Fixpoint get (m : Cache) (k : string) : option bool :=
  match m with
  | [] => None
  | (k', v) :: r => if String.eqb k' k then Some v else get r k
  end.

Fixpoint set (m : Cache) (k : string) (v : bool) : Cache :=
  match m with
  | [] => [(k, v)]
  | (k', v') :: r => if String.eqb k' k then (k', v) :: r else (k', v') :: set r k v
  end.

Fixpoint delete (m : Cache) (k : string) : Cache :=
  match m with
  | [] => []
  | (k', v') :: r => if String.eqb k' k then r else (k', v') :: delete r k
  end.

Definition size (m : Cache) : Z := Z.of_nat (List.length m).

(** [m.keys().next().value]: the oldest key, [undefined] on an empty map. *)
Definition firstKey (m : Cache) : option string :=
  match m with
  | [] => None
  | (k, _) :: _ => Some k
  end.

End Map.

(** Lines 244-249: when the cache is at its limit, delete the first key,
    unless that key is falsy ([undefined], or the empty string). *)
Definition evictIfFull (m : Cache) : Cache :=
  if Map.size m >=? CACHE_SIZE_LIMIT API_CONFIG then
    match Map.firstKey m with
    | Some firstKey => if String.eqb firstKey "" then m else Map.delete m firstKey
    | None => m
    end
  else m.

(** ** The state of one validator

    One instance of [usePuzzleValidation] as [AppContent] wires it through
    [WordInput]: [validWords] is [foundWords], [onValidWord] is
    [handleValidWord].  The cache is the module-level [Map]. *)

(** Where a call of [validateWord] stands. *)
Inductive Cont : Set :=
| Returned
    (* the call has returned *)
| AwaitFetch (retryCount : Z) (timer : option Z)
    (* suspended at [await fetch(url, options)] of attempt [retryCount];
       [timer] is the due time of [timeoutId] while that timer is set *)
| AwaitDelay (retryCount : Z) (due : Z).
    (* suspended at the retry delay after attempt [retryCount] failed *)

(** One [AbortController] with the call of [validateWord] that made it:
    the normalized word, [signal.reason] once aborted, and the call's
    continuation. *)
Record Call : Set := {
  c_word : string;
  c_reason : option JsError;
  c_cont : Cont
}.

(** A call of [trackEvent(category, action, label, value)]. *)
Record Tracked : Set := {
  category : string;
  action : string;
  label : string;
  value : option Z
}.

Record State : Set := {
  dictionaryCache : Cache;
  abortControllerRef : option nat;   (* index into [calls] *)
  calls : list Call;                 (* every controller made so far *)
  isValidating : bool;
  errorMessage : option string;
  foundWords : list string;
  fetched : list (nat * string);     (* every call of [fetch]: controller, word *)
  tracked : list Tracked;
  now : Z                            (* the clock, in milliseconds *)
}.

Definition initialState : State :=
  {| dictionaryCache := []; abortControllerRef := None; calls := [];
     isValidating := false; errorMessage := None; foundWords := [];
     fetched := []; tracked := []; now := 0 |}.

Definition setCache (m : Cache) (s : State) : State :=
  {| dictionaryCache := m; abortControllerRef := abortControllerRef s;
     calls := calls s; isValidating := isValidating s;
     errorMessage := errorMessage s; foundWords := foundWords s;
     fetched := fetched s; tracked := tracked s; now := now s |}.

Definition setRef (r : option nat) (s : State) : State :=
  {| dictionaryCache := dictionaryCache s; abortControllerRef := r;
     calls := calls s; isValidating := isValidating s;
     errorMessage := errorMessage s; foundWords := foundWords s;
     fetched := fetched s; tracked := tracked s; now := now s |}.

Definition setCalls (l : list Call) (s : State) : State :=
  {| dictionaryCache := dictionaryCache s; abortControllerRef := abortControllerRef s;
     calls := l; isValidating := isValidating s;
     errorMessage := errorMessage s; foundWords := foundWords s;
     fetched := fetched s; tracked := tracked s; now := now s |}.

Definition setIsValidating (b : bool) (s : State) : State :=
  {| dictionaryCache := dictionaryCache s; abortControllerRef := abortControllerRef s;
     calls := calls s; isValidating := b;
     errorMessage := errorMessage s; foundWords := foundWords s;
     fetched := fetched s; tracked := tracked s; now := now s |}.

Definition setErrorMessage (m : option string) (s : State) : State :=
  {| dictionaryCache := dictionaryCache s; abortControllerRef := abortControllerRef s;
     calls := calls s; isValidating := isValidating s;
     errorMessage := m; foundWords := foundWords s;
     fetched := fetched s; tracked := tracked s; now := now s |}.

Definition setFoundWords (l : list string) (s : State) : State :=
  {| dictionaryCache := dictionaryCache s; abortControllerRef := abortControllerRef s;
     calls := calls s; isValidating := isValidating s;
     errorMessage := errorMessage s; foundWords := l;
     fetched := fetched s; tracked := tracked s; now := now s |}.

Definition setFetched (l : list (nat * string)) (s : State) : State :=
  {| dictionaryCache := dictionaryCache s; abortControllerRef := abortControllerRef s;
     calls := calls s; isValidating := isValidating s;
     errorMessage := errorMessage s; foundWords := foundWords s;
     fetched := l; tracked := tracked s; now := now s |}.

Definition setNow (t : Z) (s : State) : State :=
  {| dictionaryCache := dictionaryCache s; abortControllerRef := abortControllerRef s;
     calls := calls s; isValidating := isValidating s;
     errorMessage := errorMessage s; foundWords := foundWords s;
     fetched := fetched s; tracked := tracked s; now := t |}.

(** [trackEvent(category, action, label, value)]. *)
Definition trackEvent (cat act lbl : string) (v : option Z) (s : State) : State :=
  {| dictionaryCache := dictionaryCache s; abortControllerRef := abortControllerRef s;
     calls := calls s; isValidating := isValidating s;
     errorMessage := errorMessage s; foundWords := foundWords s;
     fetched := fetched s;
     tracked := tracked s ++ [{| category := cat; action := act; label := lbl; value := v |}];
     now := now s |}.

(** The continuation of call [c] becomes [k]. *)
Definition setCont (c : nat) (k : Cont) (s : State) : State :=
  match calls s !! c with
  | Some call =>
      setCalls (<[c := {| c_word := c_word call; c_reason := c_reason call; c_cont := k |}]> (calls s)) s
  | None => s
  end.

(** [signal.reason] of controller [c], when its signal is aborted. *)
Definition signalReason (c : nat) (s : State) : option JsError :=
  match calls s !! c with
  | Some call => c_reason call
  | None => None
  end.

(** Aborting the signal of controller [c] with [reason]; an aborted signal
    stays as it is. *)
Definition abortSignal (c : nat) (reason : JsError) (s : State) : State :=
  match calls s !! c with
  | Some call =>
      match c_reason call with
      | Some _ => s
      | None =>
          setCalls (<[c := {| c_word := c_word call; c_reason := Some reason;
                              c_cont := c_cont call |}]> (calls s)) s
      end
  | None => s
  end.

(** The calls suspended at a [fetch]: the requests in flight. *)
Definition isAwaitFetch (k : Cont) : bool :=
  match k with AwaitFetch _ _ => true | _ => false end.

Definition inFlight (s : State) : list (nat * string) :=
  omap (fun '(i, call) => if isAwaitFetch (c_cont call) then Some (i, c_word call) else None)
       (imap pair (calls s)).

(** ** The hook *)

(** [interface ValidationResult]. *)
Record ValidationResult : Set := {
  isValid : bool;
  checkMessage : string   (* its [errorMessage] *)
}.

(** [interface UsePuzzleValidationProps], without [validWords] and
    [onValidWord], which are in the state; [minWordLength] defaults to 4. *)
Record UsePuzzleValidationProps : Set := {
  centerLetter : string;
  minWordLength : Z
}.

(** The task the event loop runs next. *)
Inductive Event : Set :=
| Submit (word : string)            (* the interface calls [validateWord(word)] *)
| Settle (c : nat) (o : NetOutcome) (* the network settles the [fetch] of call [c] *)
| Fire (c : nat)                    (* the timer call [c] waits on fires *)
| Elapse (dt : Z).                  (* time passes *)

Section Hook.

Variable props : UsePuzzleValidationProps.

(** Whether an [AbortSignal] of the platform has a member named [abort],
    which is what the timer of [fetchWithTimeout] tests before it calls
    it (the signals of the DOM have none: [abort] is a method of the
    controller). *)
Variable signalHasAbort : bool.

(** [handleValidWord(word)] of [AppContent]. *)
Definition handleValidWord (word : string) (s : State) : State :=
  trackEvent "Puzzle" "Valid Word" word (Some (Js.length word))
    (setFoundWords (foundWords s ++ [word]) s).

(** The [finally] block of [validateWord], lines 454-458; the call has
    then returned. *)
Definition finallyBlock (c : nat) (s : State) : State :=
  setCont c Returned (setRef None (setIsValidating false s)).

(** [validateWord] after [await checkDictionaryAPI(..)] gave
    [isValidWord], lines 423-438. *)
Definition applyResult (c : nat) (normalizedWord : string) (isValidWord : bool)
    (s : State) : State :=
  finallyBlock c
    (if isValidWord
     then setErrorMessage None (handleValidWord normalizedWord s)
     else trackEvent "Puzzle" "Invalid Word" "Not in dictionary"
            (Some (Js.length normalizedWord))
            (setErrorMessage (Some "Not a valid English word.") s)).

(** [validateWord] after [await checkDictionaryAPI(..)] threw [error],
    lines 439-453. *)
Definition applyThrown (c : nat) (error : JsError) (s : State) : State :=
  finallyBlock c
    (if negb (String.eqb (name error) "AbortError") || Js.includes (message error) "timeout"
     then
       let errorMessage :=
         match apiType error with
         | Some _ => message error
         | None => "Error validating word. Please try again."
         end in
       trackEvent "Puzzle" "API Error" (message error) None
         (setErrorMessage (Some errorMessage) s)
     else s).

(** Line 293: an abort that is not a timeout. *)
Definition isPlainAbort (error : JsError) : bool :=
  String.eqb (name error) "AbortError" && negb (Js.includes (message error) "timeout").

(** Lines 299-301: [error instanceof DictionaryAPIError ? error.type :
    getErrorType(error, response)]. *)
Definition errorTypeOf (error : JsError) (response : option Response)
    : Completion DictionaryErrorType :=
  match apiType error with
  | Some type => Normal type
  | None => getErrorType (Some error) response
  end.

(** The [catch] block of [checkDictionaryAPI], lines 291-331, for
    attempt [retryCount] of call [c]; [response] is the variable of that
    name, assigned once [fetchWithTimeout] has returned. *)
Definition catchBlock (c : nat) (word : string) (retryCount : Z)
    (error : JsError) (response : option Response) (s : State) : State :=
  if isPlainAbort error
  then applyThrown c error s
  else
    match errorTypeOf error response with
    | Throw e => applyThrown c e s
    | Normal errorType =>
        let shouldRetry := (retryCount <? MAX_RETRIES API_CONFIG) && retryable errorType in
        if shouldRetry
        then setCont c (AwaitDelay retryCount (now s + RETRY_DELAY_MS API_CONFIG)) s
        else applyThrown c
               (DictionaryAPIError errorType (getErrorMessage errorType) (statusCode error)) s
    end.

(** [data.length > 0 && data[0]?.word !== undefined], line 284. *)
Definition isValidData (data : list (option string)) : bool :=
  match data with
  | Some _ :: _ => true
  | _ => false
  end.

(** The [try] block of [checkDictionaryAPI] once the network has settled
    the [fetch], lines 257-284: the value of [isValid] or what is thrown,
    with the variable [response] as the [catch] block then finds it. *)
Definition tryBlock (o : NetOutcome) : Completion bool * option Response :=
  match o with
  | Rejects error => (Throw error, None)
  | Responds response =>
      (if negb (ok response) then
         match getErrorType None (Some response) with
         | Normal errorType =>
             Throw (DictionaryAPIError errorType
                      ("API returned status " ++ Js.ofNumber (status response))
                      (Some (status response)))
         | Throw e => Throw e
         end
       else
         match json response with
         | Throw e => Throw e
         | Normal NotArray =>
             Throw (DictionaryAPIError INVALID_RESPONSE "API response is not an array" None)
         | Normal (JsonArray data) => Normal (isValidData data)
         end,
       Some response)
  end.

(** Call [c] resumes when its [fetch] settles with [o], lines 257-331:
    a value is stored in the cache and returned to [validateWord], a throw
    goes to the [catch] block. *)
Definition resume (c : nat) (word : string) (retryCount : Z) (o : NetOutcome)
    (s : State) : State :=
  match tryBlock o with
  | (Normal isValid, _) =>
      applyResult c word isValid (setCache (Map.set (dictionaryCache s) word isValid) s)
  | (Throw error, response) => catchBlock c word retryCount error response s
  end.

(** [checkDictionaryAPI(word, signal, retryCount)] up to its first
    [await], lines 238-261, for call [c]: the cached value ([has(word)]
    and [get(word)] are the one lookup here), or the eviction and the
    [fetch].  A [fetch] on a signal that is aborted rejects at once with
    [signal.reason]. *)
Definition checkDictionaryAPI (c : nat) (word : string) (retryCount : Z)
    (s : State) : State :=
  match Map.get (dictionaryCache s) word with
  | Some isValidWord => applyResult c word isValidWord s
  | None =>
      let s1 := setCache (evictIfFull (dictionaryCache s)) s in
      let s2 := setFetched (fetched s1 ++ [(c, word)]) s1 in
      match signalReason c s2 with
      | Some reason => catchBlock c word retryCount reason None s2
      | None =>
          setCont c (AwaitFetch retryCount (Some (now s2 + TIMEOUT_MS API_CONFIG))) s2
      end
  end.

(** [validationChecks], lines 370-386. *)
Definition validationChecks (normalizedWord : string) (validWords : list string)
    : list ValidationResult :=
  [ {| isValid := Js.length normalizedWord >=? minWordLength props;
       checkMessage := "Words must be at least " ++ Js.ofNumber (minWordLength props)
                         ++ " letters long." |};
    {| isValid := Js.includes normalizedWord (Js.toLowerCase (centerLetter props));
       checkMessage := "Word must contain the letter " ++ Js.quote
                         ++ Js.toUpperCase (centerLetter props) ++ Js.quote ++ "." |};
    {| isValid := negb (existsb (fun w => String.eqb (Js.toLowerCase w) normalizedWord)
                          validWords);
       checkMessage := "You already found this word!" |} ].

(** The loop of lines 389-402: the first check that fails. *)
Fixpoint firstFailure (checks : list ValidationResult) : option ValidationResult :=
  match checks with
  | [] => None
  | check :: rest => if isValid check then firstFailure rest else Some check
  end.

(** [validateWord(word)] up to its first [await], lines 348-421.  The
    call gets the controller [c], the next index of [calls]. *)
Definition validateWord (word : string) (s : State) : State :=
  let s1 :=
    match abortControllerRef s with
    | Some current => abortSignal current abortError s
    | None => s
    end in
  let normalizedWord := Js.trim word in
  let normalizedWord := Js.toLowerCase normalizedWord in
  let c := List.length (calls s1) in
  let s2 :=
    setCalls (calls s1 ++ [{| c_word := normalizedWord; c_reason := None; c_cont := Returned |}])
      (setRef (Some c) (setErrorMessage None s1)) in
  match firstFailure (validationChecks normalizedWord (foundWords s2)) with
  | Some check =>
      trackEvent "Puzzle" "Invalid Word" (checkMessage check) None
        (setErrorMessage (Some (checkMessage check)) s2)
  | None => checkDictionaryAPI c normalizedWord 0 (setIsValidating true s2)
  end.

(** The [fetch] that aborting controller [c] rejects: call [c] is
    suspended at a [fetch] and its signal is not aborted yet. *)
Definition rejectedByAbort (c : nat) (s : State) : option (string * Z) :=
  match calls s !! c with
  | Some call =>
      match c_reason call, c_cont call with
      | None, AwaitFetch retryCount _ => Some (c_word call, retryCount)
      | _, _ => None
      end
  | None => None
  end.

(** One task of the event loop with the continuations it makes runnable;
    [None] when the task cannot happen in [s].

    - [Submit]: [validateWord] runs to its first [await]; the call it
      aborted, if that one was suspended at a [fetch], then resumes in its
      [catch] block with the abort reason.
    - [Settle]: the call resumes after [await fetch].
    - [Fire], on a retry delay: [checkDictionaryAPI] is called again.
    - [Fire], on the timer of [fetchWithTimeout], lines 205-209: the
      signal is aborted with [new Error('timeout')] when it has a member
      [abort], and the [fetch] rejects with that reason. *)
Definition step (s : State) (e : Event) : option State :=
  match e with
  | Submit word =>
      let s1 := validateWord word s in
      Some (match abortControllerRef s with
            | Some previous =>
                match rejectedByAbort previous s with
                | Some (w, retryCount) => catchBlock previous w retryCount abortError None s1
                | None => s1
                end
            | None => s1
            end)
  | Settle c o =>
      match calls s !! c with
      | Some call =>
          match c_cont call with
          | AwaitFetch retryCount _ => Some (resume c (c_word call) retryCount o s)
          | _ => None
          end
      | None => None
      end
  | Fire c =>
      match calls s !! c with
      | Some call =>
          match c_cont call with
          | AwaitDelay retryCount due =>
              if due <=? now s
              then Some (checkDictionaryAPI c (c_word call) (retryCount + 1) s)
              else None
          | AwaitFetch retryCount (Some due) =>
              if due <=? now s
              then Some (if signalHasAbort
                         then
                           match rejectedByAbort c s with
                           | Some (w, n) =>
                               catchBlock c w n (Error "timeout") None
                                 (abortSignal c (Error "timeout") s)
                           | None => setCont c (AwaitFetch retryCount None) s
                           end
                         else setCont c (AwaitFetch retryCount None) s)
              else None
          | _ => None
          end
      | None => None
      end
  | Elapse dt =>
      if 0 <=? dt then Some (setNow (now s + dt) s) else None
  end.

(** A run of tasks. *)
Fixpoint run (s : State) (es : list Event) : option State :=
  match es with
  | [] => Some s
  | e :: es' =>
      match step s e with
      | Some s' => run s' es'
      | None => None
      end
  end.

End Hook.

(** ** The progress value of [AppContent] *)

(** [interface PuzzleData]. *)
Record PuzzleData : Set := {
  center : string;
  outer : list string;
  validWords : list string;
  pangram : string;
  triviaClues : list string;
  finalTrivia : option (string * string)
}.

(** [progress], lines 37-40 of [AppContent.tsx].  The quotient of the two
    lengths is taken in the rationals; the floating-point division of
    JavaScript rounds it monotonically and leaves 0, 1 and 2 as they are. *)
Definition progress (foundWords : list string) (puzzleData : option PuzzleData) : Q :=
  match puzzleData with
  | None => 0%Q
  | Some puzzleData =>
      if (List.length (validWords puzzleData) =? 0)%nat then 0%Q
      else (inject_Z (Z.of_nat (List.length foundWords))
            / inject_Z (Z.of_nat (List.length (validWords puzzleData))))%Q
  end.

(** ** Inputs of the examples *)

(** The props [WordInput] passes for a puzzle whose center letter is a:
    [minWordLength] is left to its default. *)
Definition defaultProps : UsePuzzleValidationProps :=
  {| centerLetter := "a"; minWordLength := 4 |}.

(** A 200 response whose body is the array [data]. *)
Definition okResponse (data : list (option string)) : NetOutcome :=
  Responds {| ok := true; status := 200; json := Normal (JsonArray data) |}.

(** A response with the given status that is not [ok]. *)
Definition errorResponse (code : Z) : NetOutcome :=
  Responds {| ok := false; status := code; json := Normal NotArray |}.

(** The rejection of a [fetch] that could not reach the network. *)
Definition failedToFetch : NetOutcome := Rejects (TypeError "Failed to fetch").

(** The rejection the retry tests of the repository give [fetch]
    ([mockRejectedValue(new TypeError('Network error'))]): a [TypeError]
    whose text does not mention fetch. *)
Definition networkError : NetOutcome := Rejects (TypeError "Network error").

(** A 404 answered to a first lookup, and the same word asked again. *)
Definition notFoundTwice : list Event :=
  [Submit "zebra"; Settle 0 (errorResponse 404); Submit "zebra"].

(** The texts of the three local checks. *)
Definition tooShortMessage (props : UsePuzzleValidationProps) : string :=
  "Words must be at least " ++ Js.ofNumber (minWordLength props) ++ " letters long.".
Definition missingCenterMessage (props : UsePuzzleValidationProps) : string :=
  "Word must contain the letter " ++ Js.quote ++ Js.toUpperCase (centerLetter props)
    ++ Js.quote ++ ".".
Definition duplicateMessage : string := "You already found this word!".

(** [word] is among [validWords] up to case, as the third check tests it. *)
Definition isDuplicate (normalizedWord : string) (validWords : list string) : bool :=
  existsb (fun w => String.eqb (Js.toLowerCase w) normalizedWord) validWords.

(** The attempt that settles with [o] fails with the kind [t]: the [try]
    block throws, not by a plain abort, and the [catch] block finds [t]. *)
Definition failsWith (o : NetOutcome) (t : DictionaryErrorType) : Prop :=
  exists error response,
    tryBlock o = (Throw error, response) /\
    isPlainAbort error = false /\
    errorTypeOf error response = Normal t.

(** Three calls of [validateWord], one task each, while the network
    answers none of them. *)
Definition threeSubmissions : list Event :=
  [Submit "cabbage"; Submit "cabana"; Submit "banana"].

(** A first call whose [fetch] fails and waits for its retry, a second
    call for the same word that the dictionary answers, and then the
    retry timer of the first call. *)
Definition supersededRetry : list Event :=
  [Submit "cabbage"; Settle 0 failedToFetch;
   Submit "cabbage"; Settle 1 (okResponse [Some "cabbage"]);
   Elapse 1000; Fire 0].

(** The same with another word in between: the first call is superseded
    by a call for a different word. *)
Definition supersededRetryOther : list Event :=
  [Submit "cabbage"; Settle 0 failedToFetch;
   Submit "banana";
   Submit "cabbage"; Settle 2 (okResponse [Some "cabbage"]);
   Elapse 1000; Fire 0].

(** A [fetch] that the network never settles, and the timer of
    [fetchWithTimeout] five seconds later. *)
Definition slowRequest : list Event :=
  [Submit "cabbage"; Elapse 5000; Fire 0].

(** The [i]-th of a family of distinct words that pass the local rules of
    [defaultProps]. *)
Definition filler (i : nat) : string := "aaa" ++ NilZero.string_of_uint (Nat.to_uint i).

(** [n] words looked up one after the other, each answered with an empty
    array: calls [first] to [first + n - 1]. *)
Definition lookups (first n : nat) : list Event :=
  flat_map (fun i => [Submit (filler i); Settle i (okResponse [])]) (seq first n).

(** The cache filled to its limit, then three calls as in
    [threeSubmissions], the last two answered. *)
Definition overlappingLookups : list Event :=
  (lookups 0 1000
   ++ [Submit "cabbage"; Submit "cabana"; Submit "banana";
       Settle 1001 (okResponse [Some "cabana"]);
       Settle 1002 (okResponse [Some "banana"])])%list.

(** Props with no center letter and no minimum length, under which the
    empty word passes the local rules. *)
Definition permissiveProps : UsePuzzleValidationProps :=
  {| centerLetter := EmptyString; minWordLength := 0 |}.

(** The empty word looked up first, then words until the cache is past
    its limit. *)
Definition emptyKeyLookups : list Event :=
  ([Submit EmptyString; Settle 0 (okResponse [])] ++ lookups 1 1000)%list.

(** A puzzle with two valid words. *)
Definition smallPuzzle : PuzzleData :=
  {| center := "a"; outer := ["c"; "b"; "g"; "e"; "l"; "n"];
     validWords := ["cabbage"; "cable"]; pangram := "cabbage";
     triviaClues := []; finalTrivia := None |}.



(** The state in which [validateWord] runs its checks: the previous
    controller aborted, the message cleared, the new controller in place. *)
Definition entered (word : string) (s : State) : State :=
  let s1 := match abortControllerRef s with
            | Some current => abortSignal current abortError s
            | None => s
            end in
  setCalls (calls s1 ++ [{| c_word := Js.toLowerCase (Js.trim word);
                            c_reason := None; c_cont := Returned |}])
    (setRef (Some (List.length (calls s1))) (setErrorMessage None s1)).

(** ** The form of [WordInput]

    [handleSubmit] of [WordInput] is the caller of [validateWord].  It
    reads [isValidating] as the hook returned it at the last render; the
    component is rendered again after every change of state, so that is
    the value in the state. *)

(** [handleSubmit(e)] for the text [input]: nothing happens while a
    validation runs or when the input is blank; otherwise the input goes
    to [validateWord]. *)
Definition handleSubmit (props : UsePuzzleValidationProps) (signalHasAbort : bool)
    (input : string) (s : State) : option State :=
  if isValidating s || String.eqb (Js.trim input) EmptyString
  then Some s
  else step props signalHasAbort s (Submit input).

(** The tasks of the event loop when every submission comes through the
    form. *)
Definition formStep (props : UsePuzzleValidationProps) (signalHasAbort : bool)
    (s : State) (e : Event) : option State :=
  match e with
  | Submit input => handleSubmit props signalHasAbort input s
  | _ => step props signalHasAbort s e
  end.

Fixpoint formRun (props : UsePuzzleValidationProps) (signalHasAbort : bool)
    (s : State) (es : list Event) : option State :=
  match es with
  | [] => Some s
  | e :: es' =>
      match formStep props signalHasAbort s e with
      | Some s' => formRun props signalHasAbort s' es'
      | None => None
      end
  end.

(** A call that has not returned. *)
Definition isPending (k : Cont) : bool :=
  match k with Returned => false | _ => true end.

(** What holds of the validator between the tasks of a run through the
    form: a call that has not returned is the one whose controller the
    ref holds, [isValidating] is set while it runs, and its word is in
    lower case and not among the words found; the words found are in
    lower case and no word is there twice. *)
Definition formInvariant (s : State) : Prop :=
  (forall c call, calls s !! c = Some call -> isPending (c_cont call) = true ->
     abortControllerRef s = Some c /\ isValidating s = true /\
     isDuplicate (c_word call) (foundWords s) = false /\
     Js.toLowerCase (c_word call) = c_word call) /\
  (forall w, In w (foundWords s) -> Js.toLowerCase w = w) /\
  List.NoDup (foundWords s).

(** Call [c], for the word [w], is the only call that may not have
    returned, and the state is as the invariant wants it for that call. *)
Definition ready (c : nat) (w : string) (s : State) : Prop :=
  (forall c' call, calls s !! c' = Some call -> isPending (c_cont call) = true -> c' = c) /\
  (exists call, calls s !! c = Some call /\ c_word call = w) /\
  abortControllerRef s = Some c /\ isValidating s = true /\
  isDuplicate w (foundWords s) = false /\
  Js.toLowerCase w = w /\
  (forall w', In w' (foundWords s) -> Js.toLowerCase w' = w') /\
  List.NoDup (foundWords s).

(** The messages the hook shows: the three of the local checks, the one
    for a word the dictionary does not have, and one per kind of error. *)
Definition isUserMessage (props : UsePuzzleValidationProps) (m : string) : Prop :=
  m = tooShortMessage props \/ m = missingCenterMessage props \/ m = duplicateMessage \/
  m = "Not a valid English word." \/ exists t, m = getErrorMessage t.

(** ** Clues and the final question in [AppContent]

    The thresholds are the decimal literals of the source as rationals,
    and a quotient of two lengths is compared with them in the rationals
    (for lists shorter than 2^50 the floating-point comparison agrees). *)

Definition TRIVIA_UNLOCK_THRESHOLDS : list Q := [25 # 100; 40 # 100; 60 # 100; 80 # 100]%Q.
Definition FINAL_TRIVIA_THRESHOLD : Q := (90 # 100)%Q.

(** [TRIVIA_UNLOCK_THRESHOLDS.filter(threshold => x >= threshold).length]. *)
Definition thresholdsReached (x : Q) : nat :=
  List.length (List.filter (fun threshold => Qle_bool threshold x) TRIVIA_UNLOCK_THRESHOLDS).

(** [a / b >= threshold] for integers [a] and [b >= 0] as JavaScript
    evaluates it: division by zero gives [Infinity] for a positive [a],
    and [NaN] or [-Infinity] otherwise, which are above no threshold. *)
Definition quotientAtLeast (a b : Z) (threshold : Q) : bool :=
  if b =? 0 then 0 <? a else Qle_bool threshold (inject_Z a / inject_Z b).

(** [unlockedCluesCount], lines 42-49 of [AppContent.tsx]: the count, and
    the event tracked when the count is above the count for one word
    fewer. *)
Definition unlockedCluesCount (foundWords : list string) (puzzleData : option PuzzleData)
    : nat * option Tracked :=
  match puzzleData with
  | None => (0%nat, None)
  | Some data =>
      let count := thresholdsReached (progress foundWords puzzleData) in
      let before :=
        List.length
          (List.filter (quotientAtLeast (Z.of_nat (List.length foundWords) - 1)
                                        (Z.of_nat (List.length (validWords data))))
                       TRIVIA_UNLOCK_THRESHOLDS) in
      (count,
       if (before <? count)%nat
       then Some {| category := "Trivia"; action := "Clue Unlocked";
                    label := "Clue " ++ Js.ofNumber (Z.of_nat count);
                    value := Some (Z.of_nat count) |}
       else None)
  end.

(** [usePremiumContent]: the two counters it keeps. *)
Record Premium : Set := {
  playedPuzzles : Z;
  purchasedCredits : Z
}.

Definition FREE_PUZZLE_LIMIT : Z := 3.


(** [consumeCredit()], lines 59-65. *)
Definition consumeCredit (p : Premium) : Premium :=
  if purchasedCredits p >? 0
  then {| playedPuzzles := playedPuzzles p; purchasedCredits := purchasedCredits p - 1 |}
  else if playedPuzzles p <? FREE_PUZZLE_LIMIT
  then {| playedPuzzles := playedPuzzles p + 1; purchasedCredits := purchasedCredits p |}
  else p.



(** The state of [AppContent] around the final question. *)
Record Trivia : Set := {
  showFinalTrivia : bool;
  triviaCompleted : bool;
  premium : Premium;
  triviaTracked : list Tracked
}.

(** The effect of lines 51-56, run with the current [progress]. *)
Definition finalTriviaEffect (progress : Q) (t : Trivia) : Trivia :=
  if Qle_bool FINAL_TRIVIA_THRESHOLD progress
     && negb (showFinalTrivia t) && negb (triviaCompleted t)
  then {| showFinalTrivia := true; triviaCompleted := triviaCompleted t;
          premium := premium t;
          triviaTracked := triviaTracked t
            ++ [{| category := "Trivia"; action := "Final Trivia Shown";
                   label := EmptyString; value := None |}] |}
  else t.

(** [handleTriviaComplete()], lines 68-73. *)
Definition handleTriviaComplete (t : Trivia) : Trivia :=
  {| showFinalTrivia := false; triviaCompleted := true;
     premium := consumeCredit (premium t);
     triviaTracked := triviaTracked t
       ++ [{| category := "Trivia"; action := "Final Trivia Success";
              label := EmptyString; value := None |}] |}.

(** The button under the final question, line 232:
    [setShowFinalTrivia(false)]. *)
Definition continuePlaying (t : Trivia) : Trivia :=
  {| showFinalTrivia := false; triviaCompleted := triviaCompleted t;
     premium := premium t; triviaTracked := triviaTracked t |}.

(** What happens to that state: a render with some progress, after which
    the effect runs; the button; the right answer. *)
Inductive TriviaEvent : Set :=
| Rendered (progress : Q)
| ContinuePlaying
| TriviaComplete.

Definition triviaStep (t : Trivia) (e : TriviaEvent) : Trivia :=
  match e with
  | Rendered progress => finalTriviaEffect progress t
  | ContinuePlaying => continuePlaying t
  | TriviaComplete => handleTriviaComplete t
  end.

(** ** [TriviaClue] *)

(** [safeProgress]: [Math.min(Math.max(0, triviaProgress), triviaClues.length)]. *)
Definition safeProgress (triviaProgress : Z) (triviaClues : list string) : Z :=
  Z.min (Z.max 0 triviaProgress) (Z.of_nat (List.length triviaClues)).

(** [isUnlocked] of the clue at [index]. *)
Definition isUnlocked (index : nat) (triviaProgress : Z) (triviaClues : list string) : bool :=
  Z.of_nat index <? safeProgress triviaProgress triviaClues.

(** ** [FinalTrivia] *)

(** What a timer of the component does when it fires. *)
Inductive TriviaTimer : Set :=
| CallOnCorrect     (* [onCorrect()], after 1500 ms *)
| ClearError.       (* [setError('')], after 3000 ms *)

Record FinalTriviaState : Set := {
  userAnswer : string;
  attempts : Z;
  isCorrect : bool;
  error : string;
  timers : list (Z * TriviaTimer)
}.

(** [handleSubmit(e)] of [FinalTrivia] for the answer [correctAnswer]. *)
Definition finalTriviaSubmit (correctAnswer : string) (st : FinalTriviaState)
    : FinalTriviaState :=
  let trimmedAnswer := Js.trim (userAnswer st) in
  if String.eqb trimmedAnswer EmptyString then
    {| userAnswer := userAnswer st; attempts := attempts st; isCorrect := isCorrect st;
       error := "Please enter an answer"; timers := timers st |}
  else if String.eqb (Js.toLowerCase trimmedAnswer) (Js.toLowerCase correctAnswer) then
    {| userAnswer := userAnswer st; attempts := attempts st + 1; isCorrect := true;
       error := EmptyString; timers := timers st ++ [(1500, CallOnCorrect)] |}
  else
    {| userAnswer := userAnswer st; attempts := attempts st + 1; isCorrect := isCorrect st;
       error := "Not quite right. Try again!"; timers := timers st ++ [(3000, ClearError)] |}.

(** A text with no white space in front. *)
Definition startsClean (s : string) : Prop :=
  match s with
  | EmptyString => True
  | String c _ => Js.isWhiteSpace c = false
  end.

(** The message of [s'] is that of [s], none, or a message of the hook. *)
Definition messageKept (props : UsePuzzleValidationProps) (s s' : State) : Prop :=
  errorMessage s' = errorMessage s \/ errorMessage s' = None \/
  exists m, errorMessage s' = Some m /\ isUserMessage props m.

(** ** The string functions on examples *)

Example trim_lowercase : Js.toLowerCase (Js.trim "  Able ") = "able".
Proof. reflexivity. Qed.

Example includes_examples :
  Js.includes "cabbage" "bag" = true /\ Js.includes "test" "a" = false.
Proof. split; reflexivity. Qed.

Example checks_of_cat :
  map isValid (validationChecks defaultProps "cat" ["apple"; "able"]) = [false; true; true].
Proof. reflexivity. Qed.

(** ** Frame lemmas: what the pieces of the hook leave alone *)

Lemma setCont_fields c k s :
  dictionaryCache (setCont c k s) = dictionaryCache s /\
  abortControllerRef (setCont c k s) = abortControllerRef s /\
  isValidating (setCont c k s) = isValidating s /\
  errorMessage (setCont c k s) = errorMessage s /\
  foundWords (setCont c k s) = foundWords s /\
  fetched (setCont c k s) = fetched s /\
  tracked (setCont c k s) = tracked s /\
  now (setCont c k s) = now s.
Proof. unfold setCont. destruct (calls s !! c); repeat split; reflexivity. Qed.

Lemma abortSignal_fields c r s :
  dictionaryCache (abortSignal c r s) = dictionaryCache s /\
  abortControllerRef (abortSignal c r s) = abortControllerRef s /\
  isValidating (abortSignal c r s) = isValidating s /\
  errorMessage (abortSignal c r s) = errorMessage s /\
  foundWords (abortSignal c r s) = foundWords s /\
  fetched (abortSignal c r s) = fetched s /\
  tracked (abortSignal c r s) = tracked s /\
  now (abortSignal c r s) = now s.
Proof.
  unfold abortSignal. destruct (calls s !! c) as [call|]; [destruct (c_reason call)|];
    repeat split; reflexivity.
Qed.

Lemma abortSignal_length c r s :
  List.length (calls (abortSignal c r s)) = List.length (calls s).
Proof.
  unfold abortSignal. destruct (calls s !! c) as [call|]; [destruct (c_reason call)|];
    simpl; rewrite ?length_insert; reflexivity.
Qed.

Lemma finallyBlock_fields c s :
  dictionaryCache (finallyBlock c s) = dictionaryCache s /\
  errorMessage (finallyBlock c s) = errorMessage s /\
  foundWords (finallyBlock c s) = foundWords s /\
  fetched (finallyBlock c s) = fetched s /\
  tracked (finallyBlock c s) = tracked s /\
  now (finallyBlock c s) = now s.
Proof.
  unfold finallyBlock.
  destruct (setCont_fields c Returned (setRef None (setIsValidating false s)))
    as (-> & _ & _ & -> & -> & -> & -> & ->).
  repeat split; reflexivity.
Qed.

(** A plain abort goes through both [catch] blocks untouched: only the
    [finally] block runs. *)
Lemma catchBlock_abortError c w n s :
  catchBlock c w n abortError None s = finallyBlock c s.
Proof. reflexivity. Qed.

Lemma entered_fields word s :
  dictionaryCache (entered word s) = dictionaryCache s /\
  errorMessage (entered word s) = None /\
  foundWords (entered word s) = foundWords s /\
  fetched (entered word s) = fetched s /\
  tracked (entered word s) = tracked s /\
  now (entered word s) = now s /\
  List.length (calls (entered word s)) = S (List.length (calls s)).
Proof.
  unfold entered.
  destruct (abortControllerRef s) as [current|]; simpl.
  - destruct (abortSignal_fields current abortError s)
      as (-> & _ & _ & _ & -> & -> & -> & ->).
    rewrite length_app, abortSignal_length. simpl.
    repeat split; try reflexivity. lia.
  - rewrite length_app. simpl. repeat split; try reflexivity. lia.
Qed.

Lemma validateWord_unfold props word s :
  validateWord props word s =
  match firstFailure (validationChecks props (Js.toLowerCase (Js.trim word)) (foundWords s)) with
  | Some check =>
      trackEvent "Puzzle" "Invalid Word" (checkMessage check) None
        (setErrorMessage (Some (checkMessage check)) (entered word s))
  | None =>
      checkDictionaryAPI (List.length (calls s)) (Js.toLowerCase (Js.trim word)) 0
        (setIsValidating true (entered word s))
  end.
Proof.
  unfold validateWord.
  destruct (entered_fields word s) as (_ & _ & Hf & _).
  unfold entered in *. cbv zeta.
  destruct (abortControllerRef s) as [current|].
  - rewrite abortSignal_length. simpl in *. rewrite Hf. reflexivity.
  - reflexivity.
Qed.

(** A [Submit] is always possible, and what runs after [validateWord] (the
    [finally] block of the call it aborted) changes neither the message
    nor the words found, the cache or the calls of [fetch]. *)
Lemma step_Submit props flag s word :
  exists s',
    step props flag s (Submit word) = Some s' /\
    errorMessage s' = errorMessage (validateWord props word s) /\
    fetched s' = fetched (validateWord props word s) /\
    foundWords s' = foundWords (validateWord props word s) /\
    dictionaryCache s' = dictionaryCache (validateWord props word s) /\
    tracked s' = tracked (validateWord props word s).
Proof.
  unfold step.
  destruct (abortControllerRef s) as [previous|]; [|eauto 10].
  destruct (rejectedByAbort previous s) as [[w n]|]; [|eauto 10].
  eexists; split; [reflexivity|].
  rewrite catchBlock_abortError.
  destruct (finallyBlock_fields previous (validateWord props word s))
    as (-> & -> & -> & -> & -> & _).
  repeat split; reflexivity.
Qed.

(** When a local check fails, [validateWord] sets that check's message and
    calls neither [fetch] nor [onValidWord]. *)
Lemma validateWord_rejected props word s check :
  firstFailure (validationChecks props (Js.toLowerCase (Js.trim word)) (foundWords s))
    = Some check ->
  errorMessage (validateWord props word s) = Some (checkMessage check) /\
  fetched (validateWord props word s) = fetched s /\
  foundWords (validateWord props word s) = foundWords s /\
  dictionaryCache (validateWord props word s) = dictionaryCache s.
Proof.
  intros H. rewrite validateWord_unfold, H.
  unfold trackEvent, setErrorMessage.
  cbn [errorMessage fetched foundWords dictionaryCache].
  destruct (entered_fields word s) as (-> & _ & -> & -> & _).
  repeat split; reflexivity.
Qed.

(** The three checks in their order: which one fails first. *)
Lemma firstFailure_checks props w validWords :
  firstFailure (validationChecks props w validWords) =
  if negb (Js.length w >=? minWordLength props)
  then Some {| isValid := false; checkMessage := tooShortMessage props |}
  else if negb (Js.includes w (Js.toLowerCase (centerLetter props)))
  then Some {| isValid := false; checkMessage := missingCenterMessage props |}
  else if isDuplicate w validWords
  then Some {| isValid := false; checkMessage := duplicateMessage |}
  else None.
Proof.
  unfold validationChecks, firstFailure, isDuplicate. cbn [isValid].
  destruct (Js.length w >=? minWordLength props); cbn [negb]; [|reflexivity].
  destruct (Js.includes w (Js.toLowerCase (centerLetter props))); cbn [negb]; [|reflexivity].
  destruct (existsb _ validWords); reflexivity.
Qed.

Lemma applyResult_fields c w v s :
  dictionaryCache (applyResult c w v s) = dictionaryCache s /\
  errorMessage (applyResult c w v s) = (if v then None else Some "Not a valid English word.") /\
  foundWords (applyResult c w v s) = (if v then (foundWords s ++ [w])%list else foundWords s) /\
  fetched (applyResult c w v s) = fetched s /\
  now (applyResult c w v s) = now s.
Proof.
  unfold applyResult.
  match goal with |- context [finallyBlock c ?x] =>
    destruct (finallyBlock_fields c x) as (-> & -> & -> & -> & _ & ->) end.
  destruct v; repeat split; reflexivity.
Qed.

Lemma applyThrown_fields c e s :
  dictionaryCache (applyThrown c e s) = dictionaryCache s /\
  foundWords (applyThrown c e s) = foundWords s /\
  fetched (applyThrown c e s) = fetched s /\
  now (applyThrown c e s) = now s.
Proof.
  unfold applyThrown.
  match goal with |- context [finallyBlock c ?x] =>
    destruct (finallyBlock_fields c x) as (-> & _ & -> & -> & _ & ->) end.
  destruct (negb _ || _); repeat split; reflexivity.
Qed.

(** An error of the dictionary sets its own message. *)
Lemma applyThrown_apiError c t msg code s :
  errorMessage (applyThrown c (DictionaryAPIError t msg code) s) = Some msg.
Proof.
  unfold applyThrown.
  match goal with |- context [finallyBlock c ?x] =>
    destruct (finallyBlock_fields c x) as (_ & -> & _) end.
  reflexivity.
Qed.


Lemma checkDictionaryAPI_hit c w n s v :
  Map.get (dictionaryCache s) w = Some v ->
  checkDictionaryAPI c w n s = applyResult c w v s.
Proof. intros H. unfold checkDictionaryAPI. rewrite H. reflexivity. Qed.

Lemma checkDictionaryAPI_miss c w n s :
  Map.get (dictionaryCache s) w = None ->
  signalReason c s = None ->
  checkDictionaryAPI c w n s =
  setCont c (AwaitFetch n (Some (now s + TIMEOUT_MS API_CONFIG)))
    (setFetched (fetched s ++ [(c, w)]) (setCache (evictIfFull (dictionaryCache s)) s)).
Proof.
  intros H Hr. unfold checkDictionaryAPI. rewrite H. cbv zeta.
  change (signalReason c (setFetched _ (setCache _ s))) with (signalReason c s).
  rewrite Hr. reflexivity.
Qed.

(** The controller [validateWord] makes is the next index of [calls], and
    its signal is not aborted. *)
Lemma entered_new_call word s :
  calls (entered word s) !! List.length (calls s) =
  Some {| c_word := Js.toLowerCase (Js.trim word); c_reason := None; c_cont := Returned |}.
Proof.
  unfold entered. cbn [calls setCalls].
  destruct (abortControllerRef s) as [current|].
  - rewrite <- (abortSignal_length current abortError s).
    apply list_lookup_middle. reflexivity.
  - apply list_lookup_middle. reflexivity.
Qed.

(** What [validateWord] does once the three checks have passed. *)
Lemma validateWord_accepted_locally props word s :
  let w := Js.toLowerCase (Js.trim word) in
  let s1 := setIsValidating true (entered word s) in
  firstFailure (validationChecks props w (foundWords s)) = None ->
  validateWord props word s =
  match Map.get (dictionaryCache s) w with
  | Some v => applyResult (List.length (calls s)) w v s1
  | None =>
      setCont (List.length (calls s)) (AwaitFetch 0 (Some (now s + TIMEOUT_MS API_CONFIG)))
        (setFetched (fetched s ++ [(List.length (calls s), w)])
           (setCache (evictIfFull (dictionaryCache s)) s1))
  end.
Proof.
  intros w s1 H. subst s1. rewrite validateWord_unfold. fold w. rewrite H.
  destruct (entered_fields word s) as (Hc & _ & _ & Hf & _ & Hn & _).
  destruct (Map.get (dictionaryCache s) w) as [v|] eqn:Hg.
  - apply checkDictionaryAPI_hit. cbn [dictionaryCache setIsValidating].
    rewrite Hc. exact Hg.
  - rewrite checkDictionaryAPI_miss.
    + cbn [dictionaryCache fetched now setIsValidating].
      rewrite Hc, Hf, Hn. reflexivity.
    + cbn [dictionaryCache setIsValidating]. rewrite Hc. exact Hg.
    + unfold signalReason. cbn [calls setIsValidating].
      rewrite entered_new_call. reflexivity.
Qed.

(** ** The local rules of [validateWord] *)

(** C9.  [validateWord] normalizes the word (trim, then lower case) and
    applies the length, center-letter and duplicate rules in that order:
    the first rule that fails sets its own message, and when any rule
    fails there is no call of [fetch], no word is accepted and the cache
    is left alone.  In particular a normalized word shorter than
    [minWordLength] is rejected as too short without a remote call. *)
Theorem validateWord_local_rules props flag s word :
  let w := Js.toLowerCase (Js.trim word) in
  let tooShort := Js.length w <? minWordLength props in
  let hasCenter := Js.includes w (Js.toLowerCase (centerLetter props)) in
  let duplicate := isDuplicate w (foundWords s) in
  exists s',
    step props flag s (Submit word) = Some s' /\
    (tooShort = true -> errorMessage s' = Some (tooShortMessage props)) /\
    (tooShort = false -> hasCenter = false ->
       errorMessage s' = Some (missingCenterMessage props)) /\
    (tooShort = false -> hasCenter = true -> duplicate = true ->
       errorMessage s' = Some duplicateMessage) /\
    (tooShort = true \/ hasCenter = false \/ duplicate = true ->
       fetched s' = fetched s /\ foundWords s' = foundWords s /\
       dictionaryCache s' = dictionaryCache s).
Proof.
  intros w tooShort hasCenter duplicate.
  destruct (step_Submit props flag s word) as (s' & Hs & He & Hf & Hw & Hc & _).
  exists s'. split; [exact Hs|].
  rewrite He, Hf, Hw, Hc.
  pose proof (firstFailure_checks props w (foundWords s)) as Hff.
  fold hasCenter duplicate in Hff.
  assert (Hlen : (Js.length w >=? minWordLength props) = negb tooShort).
  { subst tooShort. rewrite Z.geb_leb, Z.leb_antisym. reflexivity. }
  rewrite Hlen, negb_involutive in Hff.
  destruct tooShort, hasCenter, duplicate; cbn [negb] in Hff;
    try (destruct (validateWord_rejected props word s _ Hff) as (-> & -> & -> & ->));
    repeat split; intros; try reflexivity; try discriminate;
    repeat match goal with H : _ \/ _ |- _ => destruct H end; discriminate.
Qed.

(** A word of three letters is rejected as too short, and nothing is
    fetched. *)
Lemma validateWord_local_rules_witness :
  exists s',
    step defaultProps false initialState (Submit "cat") = Some s' /\
    errorMessage s' = Some "Words must be at least 4 letters long." /\
    fetched s' = [].
Proof.
  destruct (validateWord_local_rules defaultProps false initialState "cat")
    as (s' & Hs & Hshort & _ & _ & Hnone).
  exists s'. split; [exact Hs|]. split.
  - apply Hshort. reflexivity.
  - apply Hnone. left. reflexivity.
Defined.

(** Every string includes the empty string. *)
Lemma includes_empty s : Js.includes s EmptyString = true.
Proof. destruct s; reflexivity. Qed.

(** C10.  When [centerLetter] is the empty string the center-letter rule
    accepts every word: [validateWord] never sets the missing-center
    message; a word that is long enough goes on to the duplicate rule, and
    one that is no duplicate to the remote check (the cached answer, or a
    [fetch]). *)
Theorem empty_centerLetter_accepts props flag s word :
  centerLetter props = EmptyString ->
  let w := Js.toLowerCase (Js.trim word) in
  Js.includes w (Js.toLowerCase (centerLetter props)) = true /\
  exists s',
    step props flag s (Submit word) = Some s' /\
    errorMessage s' <> Some (missingCenterMessage props) /\
    ((Js.length w >=? minWordLength props) = true ->
       if isDuplicate w (foundWords s)
       then errorMessage s' = Some duplicateMessage /\ fetched s' = fetched s
       else match Map.get (dictionaryCache s) w with
            | Some v =>
                fetched s' = fetched s /\
                errorMessage s' = (if v then None else Some "Not a valid English word.")
            | None => fetched s' = (fetched s ++ [(List.length (calls s), w)])%list
            end).
Proof.
  intros Hcenter w.
  assert (Hinc : Js.includes w (Js.toLowerCase (centerLetter props)) = true).
  { rewrite Hcenter. apply includes_empty. }
  split; [exact Hinc|].
  destruct (step_Submit props flag s word) as (s' & Hs & He & Hf & _).
  exists s'. split; [exact Hs|].
  rewrite He, Hf.
  pose proof (firstFailure_checks props w (foundWords s)) as Hff.
  rewrite Hinc in Hff. cbn [negb] in Hff.
  assert (Hmsg : missingCenterMessage props
                 = "Word must contain the letter " ++ Js.quote ++ Js.quote ++ ".").
  { unfold missingCenterMessage. rewrite Hcenter. reflexivity. }
  destruct (Js.length w >=? minWordLength props); cbn [negb] in Hff.
  - destruct (isDuplicate w (foundWords s)).
    + destruct (validateWord_rejected props word s _ Hff) as (-> & -> & _).
      split; [rewrite Hmsg; discriminate|]. intros _. split; reflexivity.
    + rewrite (validateWord_accepted_locally props word s Hff). fold w.
      destruct (Map.get (dictionaryCache s) w) as [v|].
      * match goal with |- context [applyResult ?c w v ?x] =>
          destruct (applyResult_fields c w v x) as (_ & -> & _ & -> & _) end.
        cbn [fetched setIsValidating].
        destruct (entered_fields word s) as (_ & _ & _ & -> & _).
        split; [destruct v; rewrite ?Hmsg; discriminate|]. intros _. split; reflexivity.
      * match goal with |- context [setCont ?c ?k ?x] =>
          destruct (setCont_fields c k x) as (_ & _ & _ & -> & _ & -> & _) end.
        cbn [errorMessage fetched setFetched setCache setIsValidating].
        destruct (entered_fields word s) as (_ & -> & _).
        split; [discriminate|]. intros _. reflexivity.
  - destruct (validateWord_rejected props word s _ Hff) as (-> & _).
    split; [|discriminate]. rewrite Hmsg. discriminate.
Qed.

(** C10: with an empty center letter the word test, which has no letter
    in common with a puzzle, goes to the dictionary. *)
Lemma empty_centerLetter_accepts_witness :
  exists s',
    step {| centerLetter := EmptyString; minWordLength := 4 |} false initialState
      (Submit "test") = Some s' /\
    fetched s' = [(0%nat, "test")].
Proof.
  destruct (empty_centerLetter_accepts
              {| centerLetter := EmptyString; minWordLength := 4 |} false initialState "test"
              eq_refl) as (_ & s' & Hs & _ & Hgo).
  exists s'. split; [exact Hs|]. apply Hgo. reflexivity.
Defined.

(** ** The cache *)

Lemma Map_get_set m k v : Map.get (Map.set m k v) k = Some v.
Proof.
  induction m as [|[k' v'] m IH]; simpl.
  - rewrite String.eqb_refl. reflexivity.
  - destruct (String.eqb k' k) eqn:E; simpl; rewrite E; [reflexivity|exact IH].
Qed.

(** What the [try] block gives for an [ok] response whose body is an
    array. *)
Lemma tryBlock_array r data :
  ok r = true -> json r = Normal (JsonArray data) ->
  tryBlock (Responds r) = (Normal (isValidData data), Some r).
Proof. intros Hok Hjson. unfold tryBlock. rewrite Hok, Hjson. reflexivity. Qed.

(** A word that is in the cache and passes the local rules is answered
    from the cache: [validateWord] calls no [fetch]. *)
Lemma cached_word_no_fetch props flag s word v :
  let w := Js.toLowerCase (Js.trim word) in
  Map.get (dictionaryCache s) w = Some v ->
  firstFailure (validationChecks props w (foundWords s)) = None ->
  exists s',
    step props flag s (Submit word) = Some s' /\
    fetched s' = fetched s /\
    errorMessage s' = (if v then None else Some "Not a valid English word.") /\
    foundWords s' = (if v then (foundWords s ++ [w])%list else foundWords s).
Proof.
  intros w Hget Hpass.
  destruct (step_Submit props flag s word) as (s' & Hs & He & Hf & Hw & _).
  exists s'. split; [exact Hs|]. rewrite He, Hf, Hw.
  rewrite (validateWord_accepted_locally props word s Hpass). fold w. rewrite Hget.
  match goal with |- context [applyResult ?c w v ?x] =>
    destruct (applyResult_fields c w v x) as (_ & -> & -> & -> & _) end.
  cbn [fetched foundWords setIsValidating].
  destruct (entered_fields word s) as (_ & _ & -> & -> & _).
  repeat split; reflexivity.
Qed.

(** ** Retries *)

Lemma setCont_lookup c k s call :
  calls s !! c = Some call ->
  calls (setCont c k s) !! c =
  Some {| c_word := c_word call; c_reason := c_reason call; c_cont := k |}.
Proof.
  intros H. unfold setCont. rewrite H. cbn [calls setCalls].
  apply list_lookup_insert_eq. apply (lookup_lt_Some _ _ _ H).
Qed.

Lemma setCont_lookup_ne c c' k s :
  c <> c' -> calls (setCont c k s) !! c' = calls s !! c'.
Proof.
  intros H. unfold setCont. destruct (calls s !! c); [|reflexivity].
  cbn [calls setCalls]. apply list_lookup_insert_ne. exact H.
Qed.

Lemma finallyBlock_lookup c s call :
  calls s !! c = Some call ->
  calls (finallyBlock c s) !! c =
  Some {| c_word := c_word call; c_reason := c_reason call; c_cont := Returned |}.
Proof. intros H. unfold finallyBlock. apply setCont_lookup. exact H. Qed.

Lemma finallyBlock_lookup_ne c c' s :
  c <> c' -> calls (finallyBlock c s) !! c' = calls s !! c'.
Proof. intros H. unfold finallyBlock. rewrite setCont_lookup_ne by exact H. reflexivity. Qed.

Lemma applyThrown_lookup c e s call :
  calls s !! c = Some call ->
  calls (applyThrown c e s) !! c =
  Some {| c_word := c_word call; c_reason := c_reason call; c_cont := Returned |}.
Proof.
  intros H. unfold applyThrown. apply finallyBlock_lookup.
  destruct (negb _ || _); exact H.
Qed.

Lemma Map_get_delete_None m k k' : Map.get m k = None -> Map.get (Map.delete m k') k = None.
Proof.
  induction m as [|[k0 v0] m IH]; simpl; [reflexivity|].
  destruct (String.eqb k0 k) eqn:E; [discriminate|]. intros H.
  destruct (String.eqb k0 k'); [exact H|]. simpl. rewrite E. apply IH, H.
Qed.

Lemma evictIfFull_get_None m k : Map.get m k = None -> Map.get (evictIfFull m) k = None.
Proof.
  intros H. unfold evictIfFull.
  destruct (Map.size m >=? _); [|exact H].
  destruct (Map.firstKey m) as [k'|]; [|exact H].
  destruct (String.eqb k' EmptyString); [exact H|].
  apply Map_get_delete_None, H.
Qed.

(** What [applyResult] tracks: the accepted word, or the word the
    dictionary does not have. *)
Lemma applyResult_tracked c w v s :
  tracked (applyResult c w v s) =
  (tracked s ++
   [if v
    then {| category := "Puzzle"; action := "Valid Word"; label := w;
            value := Some (Js.length w) |}
    else {| category := "Puzzle"; action := "Invalid Word"; label := "Not in dictionary";
            value := Some (Js.length w) |}])%list.
Proof.
  unfold applyResult.
  match goal with |- context [finallyBlock c ?x] =>
    destruct (finallyBlock_fields c x) as (_ & _ & _ & _ & -> & _) end.
  destruct v; reflexivity.
Qed.

Lemma applyResult_lookup c w v s call :
  calls s !! c = Some call ->
  calls (applyResult c w v s) !! c =
  Some {| c_word := c_word call; c_reason := c_reason call; c_cont := Returned |}.
Proof.
  intros H. unfold applyResult. apply finallyBlock_lookup.
  destruct v; exact H.
Qed.

(** An error of the dictionary is tracked as an API error under its own
    message. *)
Lemma applyThrown_tracked_apiError c t msg code s :
  tracked (applyThrown c (DictionaryAPIError t msg code) s) =
  (tracked s ++ [{| category := "Puzzle"; action := "API Error"; label := msg;
                    value := None |}])%list.
Proof.
  unfold applyThrown.
  match goal with |- context [finallyBlock c ?x] =>
    destruct (finallyBlock_fields c x) as (_ & _ & _ & _ & -> & _) end.
  reflexivity.
Qed.

(** The answer to the [fetch] of a call: an [ok] response whose body is
    an array is a value, stored in the cache and applied. *)
Lemma step_Settle_value props flag s c call n t r data :
  calls s !! c = Some call ->
  c_cont call = AwaitFetch n t ->
  ok r = true ->
  json r = Normal (JsonArray data) ->
  step props flag s (Settle c (Responds r)) =
  Some (applyResult c (c_word call) (isValidData data)
          (setCache (Map.set (dictionaryCache s) (c_word call) (isValidData data)) s)).
Proof.
  intros Hcall Hcont Hok Hjson. unfold step. rewrite Hcall, Hcont.
  unfold resume. rewrite (tryBlock_array r data Hok Hjson). reflexivity.
Qed.

(** A response that is not [ok], with a status whose kind is not retried:
    the call ends in both [catch] blocks, whatever the attempt. *)
Lemma step_Settle_status props flag s c call n t r ty :
  calls s !! c = Some call ->
  c_cont call = AwaitFetch n t ->
  ok r = false ->
  errorTypeOf nullNameError (Some r) = Normal ty ->
  retryable ty = false ->
  step props flag s (Settle c (Responds r)) =
  Some (applyThrown c (DictionaryAPIError ty (getErrorMessage ty) None) s).
Proof.
  intros Hcall Hcont Hok Hty Hretry. unfold step. rewrite Hcall, Hcont.
  unfold resume, tryBlock. rewrite Hok. cbn [negb getErrorType].
  unfold catchBlock. change (isPlainAbort nullNameError) with false. cbv iota.
  rewrite Hty, Hretry, andb_false_r. reflexivity.
Qed.

Lemma run_cons props flag s e es s1 :
  step props flag s e = Some s1 -> run props flag s (e :: es) = run props flag s1 es.
Proof. intros H. simpl. rewrite H. reflexivity. Qed.

(** A word that passes the local rules and is not in the cache: the call
    is suspended at its first [fetch], with the timer of
    [fetchWithTimeout] due [TIMEOUT_MS] later. *)
Lemma step_Submit_fetch props flag s word :
  let w := Js.toLowerCase (Js.trim word) in
  let c := List.length (calls s) in
  firstFailure (validationChecks props w (foundWords s)) = None ->
  Map.get (dictionaryCache s) w = None ->
  exists s1,
    step props flag s (Submit word) = Some s1 /\
    calls s1 !! c = Some {| c_word := w; c_reason := None;
                            c_cont := AwaitFetch 0 (Some (now s + TIMEOUT_MS API_CONFIG)) |} /\
    dictionaryCache s1 = evictIfFull (dictionaryCache s) /\
    fetched s1 = (fetched s ++ [(c, w)])%list /\
    foundWords s1 = foundWords s /\
    errorMessage s1 = None /\
    now s1 = now s.
Proof.
  intros w c Hpass Hmiss.
  pose proof (validateWord_accepted_locally props word s Hpass) as Hv.
  cbv zeta in Hv. fold w c in Hv. rewrite Hmiss in Hv.
  set (s1 := validateWord props word s) in *.
  assert (Hcall : calls s1 !! c = Some {| c_word := w; c_reason := None;
                    c_cont := AwaitFetch 0 (Some (now s + TIMEOUT_MS API_CONFIG)) |}).
  { rewrite Hv.
    rewrite (setCont_lookup c _ _ {| c_word := w; c_reason := None; c_cont := Returned |});
      [reflexivity|].
    cbn [calls setFetched setCache setIsValidating]. apply entered_new_call. }
  assert (Hrest : dictionaryCache s1 = evictIfFull (dictionaryCache s) /\
                  fetched s1 = (fetched s ++ [(c, w)])%list /\
                  foundWords s1 = foundWords s /\ errorMessage s1 = None /\ now s1 = now s).
  { rewrite Hv.
    match goal with |- context [setCont ?a ?k ?x] =>
      destruct (setCont_fields a k x) as (-> & _ & _ & -> & -> & -> & _ & ->) end.
    cbn [dictionaryCache fetched foundWords errorMessage now setFetched setCache setIsValidating].
    destruct (entered_fields word s) as (_ & -> & -> & _ & _ & -> & _).
    repeat split; reflexivity. }
  unfold step. fold s1.
  destruct (abortControllerRef s) as [previous|]; [|exists s1; tauto].
  destruct (rejectedByAbort previous s) as [[w0 n0]|] eqn:Hrej; [|exists s1; tauto].
  rewrite catchBlock_abortError.
  eexists. split; [reflexivity|].
  assert (Hne : previous <> c).
  { unfold rejectedByAbort in Hrej.
    destruct (calls s !! previous) eqn:Hl; [|discriminate].
    apply lookup_lt_Some in Hl. subst c. lia. }
  rewrite finallyBlock_lookup_ne by exact Hne.
  destruct (finallyBlock_fields previous s1) as (-> & -> & -> & -> & _ & ->).
  tauto.
Qed.

(** A failed attempt of a kind that is retried, with retries left: the
    call waits [RETRY_DELAY_MS] and nothing else changes. *)
Lemma step_Settle_retry props flag s c w n t o ty :
  calls s !! c = Some {| c_word := w; c_reason := None; c_cont := AwaitFetch n t |} ->
  failsWith o ty ->
  retryable ty = true ->
  n < MAX_RETRIES API_CONFIG ->
  exists s1,
    step props flag s (Settle c o) = Some s1 /\
    calls s1 !! c = Some {| c_word := w; c_reason := None;
                            c_cont := AwaitDelay n (now s + RETRY_DELAY_MS API_CONFIG) |} /\
    dictionaryCache s1 = dictionaryCache s /\
    fetched s1 = fetched s /\
    foundWords s1 = foundWords s /\
    errorMessage s1 = errorMessage s /\
    now s1 = now s.
Proof.
  intros Hcall (error & response & Htry & Habort & Htype) Hretry Hn.
  eexists. split.
  { unfold step. rewrite Hcall. cbn [c_cont c_word]. reflexivity. }
  unfold resume. rewrite Htry. unfold catchBlock. rewrite Habort, Htype, Hretry.
  apply Z.ltb_lt in Hn. rewrite Hn. cbn [andb].
  rewrite (setCont_lookup _ _ _ _ Hcall).
  match goal with |- context [setCont ?a ?k ?x] =>
    destruct (setCont_fields a k x) as (-> & _ & _ & -> & -> & -> & _ & ->) end.
  repeat split; reflexivity.
Qed.

(** A failed attempt of a kind that is not retried, or with no retry
    left: the call returns with the message of that kind. *)
Lemma step_Settle_fail props flag s c w n t o ty :
  calls s !! c = Some {| c_word := w; c_reason := None; c_cont := AwaitFetch n t |} ->
  failsWith o ty ->
  retryable ty = false \/ MAX_RETRIES API_CONFIG <= n ->
  exists s1,
    step props flag s (Settle c o) = Some s1 /\
    calls s1 !! c = Some {| c_word := w; c_reason := None; c_cont := Returned |} /\
    errorMessage s1 = Some (getErrorMessage ty) /\
    dictionaryCache s1 = dictionaryCache s /\
    fetched s1 = fetched s /\
    foundWords s1 = foundWords s.
Proof.
  intros Hcall (error & response & Htry & Habort & Htype) Hstop.
  eexists. split.
  { unfold step. rewrite Hcall. cbn [c_cont c_word]. reflexivity. }
  unfold resume. rewrite Htry. unfold catchBlock. rewrite Habort, Htype.
  assert (Hno : (n <? MAX_RETRIES API_CONFIG) && retryable ty = false).
  { destruct Hstop as [-> | Hn]; [apply andb_false_r|].
    apply Z.ltb_ge in Hn. rewrite Hn. reflexivity. }
  rewrite Hno.
  rewrite (applyThrown_lookup _ _ _ _ Hcall), applyThrown_apiError.
  match goal with |- context [applyThrown ?a ?e ?x] =>
    destruct (applyThrown_fields a e x) as (-> & -> & -> & _) end.
  repeat split; reflexivity.
Qed.

(** The retry delay is over: [checkDictionaryAPI] is called again, and the
    word still not being in the cache, it calls [fetch] for the next
    attempt. *)
Lemma step_Fire_retry props flag s c w n due :
  calls s !! c = Some {| c_word := w; c_reason := None; c_cont := AwaitDelay n due |} ->
  due <= now s ->
  Map.get (dictionaryCache s) w = None ->
  exists s1,
    step props flag s (Fire c) = Some s1 /\
    calls s1 !! c = Some {| c_word := w; c_reason := None;
                            c_cont := AwaitFetch (n + 1) (Some (now s + TIMEOUT_MS API_CONFIG)) |} /\
    dictionaryCache s1 = evictIfFull (dictionaryCache s) /\
    fetched s1 = (fetched s ++ [(c, w)])%list /\
    foundWords s1 = foundWords s /\
    errorMessage s1 = errorMessage s /\
    now s1 = now s.
Proof.
  intros Hcall Hdue Hmiss.
  eexists. split.
  { unfold step. rewrite Hcall. cbn [c_cont c_word].
    apply Z.leb_le in Hdue. rewrite Hdue. reflexivity. }
  rewrite checkDictionaryAPI_miss; [|exact Hmiss|unfold signalReason; rewrite Hcall; reflexivity].
  erewrite setCont_lookup; [|cbn [calls setFetched setCache]; exact Hcall].
  match goal with |- context [setCont ?a ?k ?x] =>
    destruct (setCont_fields a k x) as (-> & _ & _ & -> & -> & -> & _ & ->) end.
  repeat split; reflexivity.
Qed.

(** Before the delay is over the timer cannot fire. *)
Lemma step_Fire_early props flag s c w n due :
  calls s !! c = Some {| c_word := w; c_reason := None; c_cont := AwaitDelay n due |} ->
  now s < due ->
  step props flag s (Fire c) = None.
Proof.
  intros Hcall Hdue. unfold step. rewrite Hcall. cbn [c_cont].
  apply Z.leb_gt in Hdue. rewrite Hdue. reflexivity.
Qed.

Lemma step_Elapse props flag s dt :
  0 <= dt -> step props flag s (Elapse dt) = Some (setNow (now s + dt) s).
Proof. intros H. unfold step. apply Z.leb_le in H. rewrite H. reflexivity. Qed.

(** How the [catch] block classifies the ways an attempt can fail.  A
    plain abort is rethrown as it is and has no kind. *)
Lemma failure_kinds :
  failsWith failedToFetch NETWORK_ERROR /\
  failsWith (errorResponse 429) API_RATE_LIMIT /\
  failsWith (errorResponse 503) API_UNAVAILABLE /\
  failsWith (errorResponse 404) WORD_NOT_FOUND /\
  failsWith (errorResponse 400) UNKNOWN /\
  failsWith (Responds {| ok := true; status := 200; json := Normal NotArray |})
    INVALID_RESPONSE /\
  failsWith (Responds {| ok := true; status := 200; json := Throw (Error "Invalid JSON") |})
    UNKNOWN /\
  failsWith (Rejects {| name := "AbortError"; message := "timeout";
                        apiType := None; statusCode := None |}) TIMEOUT /\
  failsWith (Rejects (TypeError "Network error")) UNKNOWN /\
  (forall t, ~ failsWith (Rejects abortError) t).
Proof.
  repeat match goal with
         | |- _ /\ _ => split
         | |- failsWith _ _ => eexists; eexists; repeat split; reflexivity
         end.
  intros t (error & response & Htry & Habort & _).
  injection Htry as <- _. discriminate.
Qed.

(** The kinds that are retried are the three of lines 305-309. *)
Lemma retryable_kinds t :
  retryable t = true <-> t = NETWORK_ERROR \/ t = API_UNAVAILABLE \/ t = TIMEOUT.
Proof.
  destruct t; cbn; split; intros H; try discriminate; try tauto;
    repeat (destruct H as [H|H]; try discriminate).
Qed.

(** One round of the retry loop: the attempt fails with a kind that is
    retried, [dt] milliseconds pass, at least the delay, and the timer
    fires; the next attempt is then in flight. *)
Lemma retry_round props flag s c w n t o ty dt :
  calls s !! c = Some {| c_word := w; c_reason := None; c_cont := AwaitFetch n t |} ->
  Map.get (dictionaryCache s) w = None ->
  failsWith o ty ->
  retryable ty = true ->
  n < MAX_RETRIES API_CONFIG ->
  RETRY_DELAY_MS API_CONFIG <= dt ->
  exists s1,
    run props flag s [Settle c o; Elapse dt; Fire c] = Some s1 /\
    (exists t', calls s1 !! c = Some {| c_word := w; c_reason := None;
                                        c_cont := AwaitFetch (n + 1) t' |}) /\
    Map.get (dictionaryCache s1) w = None /\
    fetched s1 = (fetched s ++ [(c, w)])%list /\
    foundWords s1 = foundWords s /\
    errorMessage s1 = errorMessage s.
Proof.
  intros Hcall Hmiss Hfail Hretry Hn Hdt.
  destruct (step_Settle_retry props flag s c w n t o ty Hcall Hfail Hretry Hn)
    as (s1 & Hs1 & Hc1 & Hm1 & Hf1 & Hw1 & He1 & Hn1).
  assert (Hdt0 : 0 <= dt) by (cbn in Hdt; lia).
  pose proof (step_Elapse props flag s1 dt Hdt0) as Hs2.
  set (s2 := setNow (now s1 + dt) s1) in *.
  destruct (step_Fire_retry props flag s2 c w n (now s + RETRY_DELAY_MS API_CONFIG))
    as (s3 & Hs3 & Hc3 & Hm3 & Hf3 & Hw3 & He3 & _).
  { exact Hc1. }
  { subst s2. cbn [now setNow]. rewrite Hn1. lia. }
  { subst s2. cbn [dictionaryCache setNow]. rewrite Hm1. exact Hmiss. }
  exists s3. split.
  { rewrite (run_cons _ _ _ _ _ _ Hs1), (run_cons _ _ _ _ _ _ Hs2),
      (run_cons _ _ _ _ _ _ Hs3). reflexivity. }
  split; [eexists; exact Hc3|].
  rewrite Hm3, Hf3, Hw3, He3. subst s2.
  cbn [dictionaryCache fetched foundWords errorMessage setNow].
  rewrite Hm1, Hf1, Hw1, He1.
  split; [apply evictIfFull_get_None, Hmiss|]. repeat split; reflexivity.
Qed.

Lemma run_app props flag s es1 es2 s1 :
  run props flag s es1 = Some s1 ->
  run props flag s (es1 ++ es2) = run props flag s1 es2.
Proof.
  revert s. induction es1 as [|e es1 IH]; intros s H; simpl in *.
  - injection H as ->. reflexivity.
  - destruct (step props flag s e); [apply IH, H|discriminate].
Qed.

(** The retry loop over the kinds as the [catch] block finds them.  A
    remote check whose attempts fail with a kind that is retried makes
    three calls of [fetch] in all, each retry at least one second after
    the failure before it and never earlier, and after the third failure
    the call returns with the message of that failure's kind.  A failure
    of any other kind, at the first attempt or at a retry, returns at once
    with its message and no further call of [fetch].  Which failures get
    which kind is [getErrorType]'s matter: see [failure_kinds]. *)
Lemma retry_policy props flag s word o1 o2 o3 t1 t2 t3 dt1 dt2 :
  let w := Js.toLowerCase (Js.trim word) in
  let c := List.length (calls s) in
  let returned := Some {| c_word := w; c_reason := None; c_cont := Returned |} in
  firstFailure (validationChecks props w (foundWords s)) = None ->
  Map.get (dictionaryCache s) w = None ->
  failsWith o1 t1 -> failsWith o2 t2 -> failsWith o3 t3 ->
  1000 <= dt1 -> 1000 <= dt2 ->
  (retryable t1 = true -> retryable t2 = true ->
     (exists s',
        run props flag s [Submit word; Settle c o1; Elapse dt1; Fire c;
                          Settle c o2; Elapse dt2; Fire c; Settle c o3] = Some s' /\
        fetched s' = (fetched s ++ [(c, w); (c, w); (c, w)])%list /\
        errorMessage s' = Some (getErrorMessage t3) /\
        calls s' !! c = returned /\
        foundWords s' = foundWords s) /\
     (forall dt, 0 <= dt < 1000 ->
        run props flag s [Submit word; Settle c o1; Elapse dt; Fire c] = None)) /\
  (retryable t1 = true -> retryable t2 = false ->
     exists s',
       run props flag s [Submit word; Settle c o1; Elapse dt1; Fire c; Settle c o2]
         = Some s' /\
       fetched s' = (fetched s ++ [(c, w); (c, w)])%list /\
       errorMessage s' = Some (getErrorMessage t2) /\
       calls s' !! c = returned /\
       foundWords s' = foundWords s) /\
  (retryable t1 = false ->
     exists s',
       run props flag s [Submit word; Settle c o1] = Some s' /\
       fetched s' = (fetched s ++ [(c, w)])%list /\
       errorMessage s' = Some (getErrorMessage t1) /\
       calls s' !! c = returned /\
       foundWords s' = foundWords s).
Proof.
  intros w c returned Hpass Hmiss H1 H2 H3 Hdt1 Hdt2.
  destruct (step_Submit_fetch props flag s word Hpass Hmiss)
    as (s1 & Hs1 & Hc1 & Hm1 & Hf1 & Hw1 & He1 & Hn1).
  fold w c in Hc1, Hm1, Hf1.
  assert (Hmiss1 : Map.get (dictionaryCache s1) w = None).
  { rewrite Hm1. apply evictIfFull_get_None, Hmiss. }
  split; [|split].
  - intros Hr1 Hr2. split.
    + destruct (retry_round props flag s1 c w 0 _ o1 t1 dt1 Hc1 Hmiss1 H1 Hr1)
        as (s2 & Hs2 & (t' & Hc2) & Hm2 & Hf2 & Hw2 & He2); [reflexivity|exact Hdt1|].
      destruct (retry_round props flag s2 c w 1 _ o2 t2 dt2 Hc2 Hm2 H2 Hr2)
        as (s3 & Hs3 & (t'' & Hc3) & Hm3 & Hf3 & Hw3 & He3); [reflexivity|exact Hdt2|].
      destruct (step_Settle_fail props flag s3 c w 2 _ o3 t3 Hc3 H3)
        as (s4 & Hs4 & Hc4 & He4 & _ & Hf4 & Hw4); [right; reflexivity|].
      exists s4. split.
      { rewrite (run_cons _ _ _ _ _ _ Hs1).
        change (run props flag s1 ?es)
          with (run props flag s1 ([Settle c o1; Elapse dt1; Fire c]
                                     ++ [Settle c o2; Elapse dt2; Fire c; Settle c o3])).
        rewrite (run_app _ _ _ _ _ _ Hs2).
        change (run props flag s2 ?es)
          with (run props flag s2 ([Settle c o2; Elapse dt2; Fire c] ++ [Settle c o3])).
        rewrite (run_app _ _ _ _ _ _ Hs3).
        rewrite (run_cons _ _ _ _ _ _ Hs4). reflexivity. }
      rewrite Hf4, Hf3, Hf2, Hf1, Hw4, Hw3, Hw2, Hw1, <- !app_assoc.
      repeat split; try reflexivity; assumption.
    + intros dt Hdt.
      destruct (step_Settle_retry props flag s1 c w 0 _ o1 t1 Hc1 H1 Hr1)
        as (s2 & Hs2 & Hc2 & _ & _ & _ & _ & Hn2); [reflexivity|].
      rewrite (run_cons _ _ _ _ _ _ Hs1), (run_cons _ _ _ _ _ _ Hs2).
      rewrite (run_cons _ _ _ _ _ _ (step_Elapse props flag s2 dt (proj1 Hdt))).
      cbn [run].
      rewrite (step_Fire_early props flag _ c w 0 (now s1 + RETRY_DELAY_MS API_CONFIG));
        [reflexivity|exact Hc2|].
      cbn [now setNow]. rewrite Hn2. cbn. lia.
  - intros Hr1 Hr2.
    destruct (retry_round props flag s1 c w 0 _ o1 t1 dt1 Hc1 Hmiss1 H1 Hr1)
      as (s2 & Hs2 & (t' & Hc2) & Hm2 & Hf2 & Hw2 & He2); [reflexivity|exact Hdt1|].
    destruct (step_Settle_fail props flag s2 c w 1 _ o2 t2 Hc2 H2)
      as (s3 & Hs3 & Hc3 & He3 & _ & Hf3 & Hw3); [left; exact Hr2|].
    exists s3. split.
    { rewrite (run_cons _ _ _ _ _ _ Hs1).
      change (run props flag s1 ?es)
        with (run props flag s1 ([Settle c o1; Elapse dt1; Fire c] ++ [Settle c o2])).
      rewrite (run_app _ _ _ _ _ _ Hs2), (run_cons _ _ _ _ _ _ Hs3). reflexivity. }
    rewrite Hf3, Hf2, Hf1, Hw3, Hw2, Hw1, <- !app_assoc.
    repeat split; try reflexivity; assumption.
  - intros Hr1.
    destruct (step_Settle_fail props flag s1 c w 0 _ o1 t1 Hc1 H1)
      as (s2 & Hs2 & Hc2 & He2 & _ & Hf2 & Hw2); [left; exact Hr1|].
    exists s2. split.
    { rewrite (run_cons _ _ _ _ _ _ Hs1), (run_cons _ _ _ _ _ _ Hs2). reflexivity. }
    rewrite Hf2, Hf1, Hw2, Hw1. repeat split; try reflexivity; assumption.
Qed.

(** Three failed connections in a row, from the initial state. *)
Lemma retry_policy_witness :
  exists s',
    run defaultProps false initialState
      [Submit "cabbage"; Settle 0 failedToFetch; Elapse 1000; Fire 0;
       Settle 0 failedToFetch; Elapse 1000; Fire 0; Settle 0 failedToFetch] = Some s' /\
    fetched s' = [(0%nat, "cabbage"); (0%nat, "cabbage"); (0%nat, "cabbage")] /\
    errorMessage s' =
      Some "No internet connection. Please check your network and try again.".
Proof.
  assert (Hfail : failsWith failedToFetch NETWORK_ERROR).
  { exists (TypeError "Failed to fetch"), None. repeat split; reflexivity. }
  destruct (retry_policy defaultProps false initialState "cabbage"
              failedToFetch failedToFetch failedToFetch
              NETWORK_ERROR NETWORK_ERROR NETWORK_ERROR 1000 1000
              eq_refl eq_refl Hfail Hfail Hfail)
    as (Hretry & _ & _); [lia|lia|].
  destruct (Hretry eq_refl eq_refl) as ((s' & Hrun & Hf & He & _) & _).
  exists s'. repeat split; assumption.
Defined.

(** C5.  The retry tests of the repository make [fetch] reject with
    [new TypeError('Network error')] and expect three calls of [fetch]
    and then the message of a network error.  [getErrorType] takes a
    [TypeError] for a network error only when its text contains fetch, so
    this failure is of kind [UNKNOWN], which is not retried: the call
    returns after one [fetch] with the generic message, and no timer is
    left that could start a retry.  The same call failing with the text
    Failed to fetch waits one second for its retry. *)
Theorem network_error_is_not_retried flag :
  failsWith networkError UNKNOWN /\
  retryable UNKNOWN = false /\
  (exists s',
     run defaultProps flag initialState [Submit "fail"; Settle 0 networkError] = Some s' /\
     fetched s' = [(0%nat, "fail")] /\
     errorMessage s' = Some "Error validating word. Please try again." /\
     calls s' !! 0%nat = Some {| c_word := "fail"; c_reason := None; c_cont := Returned |} /\
     isValidating s' = false /\
     foundWords s' = [] /\
     forall dt, run defaultProps flag s' [Elapse dt; Fire 0] = None) /\
  (exists s',
     run defaultProps flag initialState [Submit "fail"; Settle 0 failedToFetch] = Some s' /\
     fetched s' = [(0%nat, "fail")] /\
     errorMessage s' = None /\
     calls s' !! 0%nat = Some {| c_word := "fail"; c_reason := None;
                                 c_cont := AwaitDelay 0 1000 |}).
Proof.
  split.
  { exists (TypeError "Network error"), None. repeat split; reflexivity. }
  split; [reflexivity|]. split.
  - eexists. split; [vm_compute; reflexivity|].
    split; [reflexivity|]. split; [reflexivity|]. split; [reflexivity|].
    split; [reflexivity|]. split; [reflexivity|].
    intros dt. cbn [run step]. destruct (0 <=? dt); reflexivity.
  - eexists. split; [vm_compute; reflexivity|].
    split; [reflexivity|]. split; reflexivity.
Qed.

(** ** The cache round trip *)

(** Against C7 as stated: the dictionary answers 404 for a word it does
    not have.  The check completes, not cancelled, with the message of an
    invalid word, but nothing is cached, and the same word asked again is
    fetched again. *)
Lemma not_found_is_looked_up_again :
  (exists s',
     run defaultProps false initialState [Submit "zebra"; Settle 0 (errorResponse 404)]
       = Some s' /\
     calls s' !! 0%nat = Some {| c_word := "zebra"; c_reason := None; c_cont := Returned |} /\
     errorMessage s' = Some "Not a valid English word." /\
     dictionaryCache s' = []) /\
  (exists s',
     run defaultProps false initialState notFoundTwice = Some s' /\
     fetched s' = [(0%nat, "zebra"); (1%nat, "zebra")] /\
     inFlight s' = [(1%nat, "zebra")]).
Proof.
  split.
  - eexists. split; [vm_compute; reflexivity|].
    split; [reflexivity|]. split; reflexivity.
  - eexists. split; [vm_compute; reflexivity|]. split; reflexivity.
Qed.

(** C7, amended.  When the remote check of a call completes with a value
    (an [ok] response whose body is an array), the value is in the cache
    when the call returns, under the call's word; a following
    [validateWord] for that word that passes the local rules is answered
    from the cache and calls no [fetch]; so does any later one, in
    whatever state, as long as the word is still in the cache.  A 404 is
    no value: the call returns with the message of an invalid word and
    the cache as it was, and a following [validateWord] for that word
    that passes the local rules calls [fetch] again. *)
Theorem cache_round_trip props flag s c call n t r :
  calls s !! c = Some call ->
  c_cont call = AwaitFetch n t ->
  (forall data,
     ok r = true ->
     json r = Normal (JsonArray data) ->
     exists s',
       step props flag s (Settle c (Responds r)) = Some s' /\
       Map.get (dictionaryCache s') (c_word call) = Some (isValidData data) /\
       forall word,
         Js.toLowerCase (Js.trim word) = c_word call ->
         firstFailure (validationChecks props (c_word call) (foundWords s')) = None ->
         exists s'',
           step props flag s' (Submit word) = Some s'' /\
           fetched s'' = fetched s' /\
           errorMessage s'' =
             (if isValidData data then None else Some "Not a valid English word.") /\
           forall later v,
             Map.get (dictionaryCache later) (c_word call) = Some v ->
             firstFailure (validationChecks props (c_word call) (foundWords later)) = None ->
             exists last,
               step props flag later (Submit word) = Some last /\
               fetched last = fetched later) /\
  (ok r = false ->
   status r = 404 ->
   exists s',
     step props flag s (Settle c (Responds r)) = Some s' /\
     calls s' !! c = Some {| c_word := c_word call; c_reason := c_reason call;
                             c_cont := Returned |} /\
     errorMessage s' = Some "Not a valid English word." /\
     dictionaryCache s' = dictionaryCache s /\
     fetched s' = fetched s /\
     forall word,
       Js.toLowerCase (Js.trim word) = c_word call ->
       firstFailure (validationChecks props (c_word call) (foundWords s')) = None ->
       Map.get (dictionaryCache s) (c_word call) = None ->
       exists s'',
         step props flag s' (Submit word) = Some s'' /\
         fetched s'' = (fetched s' ++ [(List.length (calls s'), c_word call)])%list).
Proof.
  intros Hcall Hcont. split.
  - intros data Hok Hjson.
    eexists. split.
    { unfold step. rewrite Hcall, Hcont. reflexivity. }
    unfold resume. rewrite (tryBlock_array r data Hok Hjson).
    match goal with |- context [applyResult c ?w ?v ?x] =>
      destruct (applyResult_fields c w v x) as (Hc & _); set (s' := applyResult c w v x) in * end.
    assert (Hget : Map.get (dictionaryCache s') (c_word call) = Some (isValidData data)).
    { rewrite Hc. cbn [dictionaryCache setCache]. apply Map_get_set. }
    split; [exact Hget|].
    intros word Hword Hpass.
    rewrite <- Hword in Hget, Hpass.
    destruct (cached_word_no_fetch props flag s' word _ Hget Hpass)
      as (s'' & Hs & Hf & He & _).
    exists s''. split; [exact Hs|]. split; [exact Hf|]. split; [exact He|].
    intros later v Hlater Hpass'. rewrite <- Hword in Hlater, Hpass'.
    destruct (cached_word_no_fetch props flag later word _ Hlater Hpass')
      as (last & Hl & Hfl & _).
    exists last. split; assumption.
  - intros Hok Hstatus.
    assert (Hty : errorTypeOf nullNameError (Some r) = Normal WORD_NOT_FOUND).
    { unfold errorTypeOf, getErrorType. cbn. rewrite Hstatus. reflexivity. }
    eexists. split;
      [exact (step_Settle_status props flag s c call n t r _ Hcall Hcont Hok Hty eq_refl)|].
    rewrite applyThrown_apiError.
    rewrite (applyThrown_lookup c _ _ call) by exact Hcall.
    match goal with |- context [applyThrown c ?e ?x] =>
      destruct (applyThrown_fields c e x) as (Hc & Hw & Hf & _);
      set (s' := applyThrown c e x) in * end.
    split; [reflexivity|]. split; [reflexivity|]. split; [exact Hc|]. split; [exact Hf|].
    intros word Hword Hpass Hmiss.
    rewrite <- Hc, <- Hword in Hmiss. rewrite <- Hword in Hpass.
    destruct (step_Submit_fetch props flag s' word Hpass Hmiss)
      as (s'' & Hs & _ & _ & Hf' & _).
    exists s''. rewrite <- Hword. split; assumption.
Qed.

(** C7: a word the dictionary does not know, answered with an empty
    array, is looked up once; answered with a 404, it is looked up
    again. *)
Lemma cache_round_trip_witness :
  (exists s s' s'',
     step defaultProps false initialState (Submit "zebra") = Some s /\
     step defaultProps false s (Settle 0 (okResponse [])) = Some s' /\
     Map.get (dictionaryCache s') "zebra" = Some false /\
     step defaultProps false s' (Submit " Zebra ") = Some s'' /\
     fetched s'' = fetched s') /\
  (exists s s' s'',
     step defaultProps false initialState (Submit "zebra") = Some s /\
     step defaultProps false s (Settle 0 (errorResponse 404)) = Some s' /\
     dictionaryCache s' = [] /\
     step defaultProps false s' (Submit " Zebra ") = Some s'' /\
     fetched s'' = (fetched s' ++ [(1%nat, "zebra")])%list).
Proof.
  pose (s := validateWord defaultProps "zebra" initialState).
  pose (call := {| c_word := "zebra"; c_reason := None; c_cont := AwaitFetch 0 (Some 5000) |}).
  split.
  - destruct (cache_round_trip defaultProps false s 0 call 0 (Some 5000)
                {| ok := true; status := 200; json := Normal (JsonArray []) |}
                eq_refl eq_refl) as (Hvalue & _).
    destruct (Hvalue [] eq_refl eq_refl) as (s' & Hs' & Hget & Hnext).
    assert (Hfound : foundWords s' = []).
    { vm_compute in Hs'. injection Hs' as <-. reflexivity. }
    destruct (Hnext " Zebra " eq_refl) as (s'' & Hs'' & Hf & _ & _).
    { rewrite Hfound. reflexivity. }
    exists s, s', s''. repeat split; assumption.
  - destruct (cache_round_trip defaultProps false s 0 call 0 (Some 5000)
                {| ok := false; status := 404; json := Normal NotArray |}
                eq_refl eq_refl) as (_ & Herror).
    destruct (Herror eq_refl eq_refl) as (s' & Hs' & Hcall & _ & Hc & _ & Hnext).
    assert (Hfound : foundWords s' = [] /\ List.length (calls s') = 1%nat).
    { vm_compute in Hs'. injection Hs' as <-. split; reflexivity. }
    destruct Hfound as (Hfound & Hlen).
    destruct (Hnext " Zebra " eq_refl) as (s'' & Hs'' & Hf).
    { rewrite Hfound. reflexivity. }
    { reflexivity. }
    rewrite Hlen in Hf.
    exists s, s', s''. repeat split; assumption.
Defined.

(** ** How a response is read *)

(** Against C6 as stated: the explicit not-found answer of the
    dictionary, status 404, is not turned into the value [false]: the [try] block throws, the call ends
    in the [catch] block of [validateWord] with an API error tracked, and
    nothing is cached. *)
Lemma not_found_status_is_an_error :
  fst (tryBlock (errorResponse 404)) <> Normal false /\
  exists s',
    run defaultProps false initialState [Submit "cabbage"; Settle 0 (errorResponse 404)]
      = Some s' /\
    dictionaryCache s' = [] /\
    tracked s' = [{| category := "Puzzle"; action := "API Error";
                     label := "Not a valid English word."; value := None |}].
Proof.
  split; [discriminate|]. eexists. split; [vm_compute; reflexivity|].
  split; reflexivity.
Qed.

(** C6, amended.  An [ok] response whose body is an array gives a value:
    [true] exactly when the array is not empty and its first entry has a
    [word], so [false] for the empty array.  Either value is a normal
    result: it is stored in the cache under the call's word and applied
    ([true] accepts the word, [false] sets the message of an invalid word
    and tracks an invalid word, not an error).  A response with status
    404 that is not [ok] gives no value: the attempt fails with the kind
    [WORD_NOT_FOUND], which is not retried at any attempt; the call
    returns with the message of that kind, an API error is tracked, and
    the cache is left as it was. *)
Theorem response_interpretation r :
  (ok r = true ->
   forall data, json r = Normal (JsonArray data) ->
     fst (tryBlock (Responds r)) = Normal (isValidData data) /\
     (isValidData data = true <-> exists word rest, data = Some word :: rest) /\
     (data = [] -> isValidData data = false) /\
     forall props flag s c call n t,
       calls s !! c = Some call ->
       c_cont call = AwaitFetch n t ->
       exists s',
         step props flag s (Settle c (Responds r)) = Some s' /\
         calls s' !! c = Some {| c_word := c_word call; c_reason := c_reason call;
                                 c_cont := Returned |} /\
         dictionaryCache s' = Map.set (dictionaryCache s) (c_word call) (isValidData data) /\
         Map.get (dictionaryCache s') (c_word call) = Some (isValidData data) /\
         fetched s' = fetched s /\
         errorMessage s' =
           (if isValidData data then None else Some "Not a valid English word.") /\
         foundWords s' =
           (if isValidData data then (foundWords s ++ [c_word call])%list else foundWords s) /\
         tracked s' =
           (tracked s ++
            [if isValidData data
             then {| category := "Puzzle"; action := "Valid Word"; label := c_word call;
                     value := Some (Js.length (c_word call)) |}
             else {| category := "Puzzle"; action := "Invalid Word";
                     label := "Not in dictionary";
                     value := Some (Js.length (c_word call)) |}])%list) /\
  (ok r = false -> status r = 404 ->
     failsWith (Responds r) WORD_NOT_FOUND /\
     retryable WORD_NOT_FOUND = false /\
     getErrorMessage WORD_NOT_FOUND = "Not a valid English word." /\
     forall props flag s c call n t,
       calls s !! c = Some call ->
       c_cont call = AwaitFetch n t ->
       exists s',
         step props flag s (Settle c (Responds r)) = Some s' /\
         calls s' !! c = Some {| c_word := c_word call; c_reason := c_reason call;
                                 c_cont := Returned |} /\
         errorMessage s' = Some "Not a valid English word." /\
         dictionaryCache s' = dictionaryCache s /\
         foundWords s' = foundWords s /\
         fetched s' = fetched s /\
         tracked s' =
           (tracked s ++ [{| category := "Puzzle"; action := "API Error";
                             label := "Not a valid English word."; value := None |}])%list).
Proof.
  split.
  - intros Hok data Hjson. rewrite (tryBlock_array r data Hok Hjson).
    split; [reflexivity|]. split; [|split].
    + destruct data as [|[word|] rest]; cbn; split; intros H; try discriminate; eauto.
      * destruct H as (? & ? & ?). discriminate.
      * destruct H as (? & ? & ?). discriminate.
    + intros ->. reflexivity.
    + intros props flag s c call n t Hcall Hcont.
      eexists. split; [exact (step_Settle_value props flag s c call n t r data Hcall Hcont Hok Hjson)|].
      rewrite applyResult_tracked.
      rewrite (applyResult_lookup c _ _ _ call) by exact Hcall.
      match goal with |- context [applyResult c ?w ?v ?x] =>
        destruct (applyResult_fields c w v x) as (-> & -> & -> & -> & _) end.
      cbn [dictionaryCache fetched foundWords tracked setCache].
      rewrite Map_get_set. repeat split; reflexivity.
  - intros Hok Hstatus.
    assert (Hty : errorTypeOf nullNameError (Some r) = Normal WORD_NOT_FOUND).
    { unfold errorTypeOf, getErrorType. cbn. rewrite Hstatus. reflexivity. }
    assert (Hfail : failsWith (Responds r) WORD_NOT_FOUND).
    { exists nullNameError, (Some r). unfold tryBlock. rewrite Hok. cbn [negb getErrorType].
      repeat split; try reflexivity. exact Hty. }
    split; [exact Hfail|]. split; [reflexivity|]. split; [reflexivity|].
    intros props flag s c call n t Hcall Hcont.
    eexists. split;
      [exact (step_Settle_status props flag s c call n t r _ Hcall Hcont Hok Hty eq_refl)|].
    rewrite applyThrown_tracked_apiError, applyThrown_apiError.
    rewrite (applyThrown_lookup c _ _ call) by exact Hcall.
    match goal with |- context [applyThrown c ?e ?x] =>
      destruct (applyThrown_fields c e x) as (-> & -> & -> & _) end.
    repeat split; reflexivity.
Qed.

(** C6: the answer for a word the dictionary has, an empty array and a
    404 for a word it does not have. *)
Lemma response_interpretation_witness :
  fst (tryBlock (okResponse [Some "cabbage"])) = Normal true /\
  failsWith (errorResponse 404) WORD_NOT_FOUND /\
  (exists s',
     step defaultProps false (validateWord defaultProps "zebra" initialState)
       (Settle 0 (okResponse [])) = Some s' /\
     dictionaryCache s' = [("zebra", false)] /\
     tracked s' = [{| category := "Puzzle"; action := "Invalid Word";
                      label := "Not in dictionary"; value := Some 5 |}]) /\
  (exists s',
     step defaultProps false (validateWord defaultProps "zebra" initialState)
       (Settle 0 (errorResponse 404)) = Some s' /\
     dictionaryCache s' = [] /\
     tracked s' = [{| category := "Puzzle"; action := "API Error";
                      label := "Not a valid English word."; value := None |}]).
Proof.
  pose (s := validateWord defaultProps "zebra" initialState).
  pose (call := {| c_word := "zebra"; c_reason := None; c_cont := AwaitFetch 0 (Some 5000) |}).
  split; [|split; [|split]].
  - exact (proj1 (proj1 (response_interpretation
                           {| ok := true; status := 200;
                              json := Normal (JsonArray [Some "cabbage"]) |})
                          eq_refl _ eq_refl)).
  - exact (proj1 (proj2 (response_interpretation
                           {| ok := false; status := 404; json := Normal NotArray |})
                          eq_refl eq_refl)).
  - destruct (proj1 (response_interpretation
                       {| ok := true; status := 200; json := Normal (JsonArray []) |})
                eq_refl [] eq_refl) as (_ & _ & _ & Hstep).
    destruct (Hstep defaultProps false s 0%nat call 0 (Some 5000) eq_refl eq_refl)
      as (s' & Hs & _ & Hc & _ & _ & _ & _ & Ht).
    exists s'. rewrite Hc, Ht. split; [exact Hs|]. split; reflexivity.
  - destruct (proj2 (response_interpretation
                       {| ok := false; status := 404; json := Normal NotArray |})
                eq_refl eq_refl) as (_ & _ & _ & Hstep).
    destruct (Hstep defaultProps false s 0%nat call 0 (Some 5000) eq_refl eq_refl)
      as (s' & Hs & _ & _ & Hc & _ & _ & Ht).
    exists s'. rewrite Hc, Ht. split; [exact Hs|]. split; reflexivity.
Defined.

(** ** Timeouts *)

(** C4.  A [fetch] the network does not settle within five seconds.  On a
    platform whose signals have an [abort] member the timer aborts the
    signal with [new Error('timeout')]; [getErrorType] classifies that
    error as [UNKNOWN], not [TIMEOUT], so the attempt is not retried and
    the call returns with the generic message after a single [fetch], no
    timer left to fire.  On
    a platform whose signals have none (the DOM) the timer does nothing:
    the request stays in flight, its signal not aborted, with no timer
    left. *)
Theorem timeout_is_not_classified_as_timeout :
  getErrorType (Some (Error "timeout")) None = Normal UNKNOWN /\
  retryable UNKNOWN = false /\
  (exists s',
     run defaultProps true initialState slowRequest = Some s' /\
     errorMessage s' = Some "Error validating word. Please try again." /\
     errorMessage s' <> Some (getErrorMessage TIMEOUT) /\
     fetched s' = [(0%nat, "cabbage")] /\
     inFlight s' = [] /\
     (forall c, step defaultProps true s' (Fire c) = None)) /\
  (exists s',
     run defaultProps false initialState slowRequest = Some s' /\
     inFlight s' = [(0%nat, "cabbage")] /\
     signalReason 0 s' = None /\
     step defaultProps false s' (Fire 0) = None).
Proof.
  split; [reflexivity|]. split; [reflexivity|]. split.
  - eexists. split; [vm_compute; reflexivity|].
    split; [reflexivity|]. split; [discriminate|]. split; [reflexivity|].
    split; [reflexivity|].
    intros c. destruct c as [|[|c]]; reflexivity.
  - eexists. split; [vm_compute; reflexivity|]. repeat split; reflexivity.
Qed.

(** ** Cancellation *)

(** C1.  Three calls of [validateWord] in a row, none answered yet.  The
    second call aborts the first; the [finally] block of the first call
    then clears [abortControllerRef], which by then holds the controller
    of the second call.  The third call therefore finds nothing to abort:
    the requests of the second and of the third call are both in flight,
    neither signal aborted. *)
Theorem two_requests_in_flight :
  exists s1 s2 s3,
    step defaultProps false initialState (Submit "cabbage") = Some s1 /\
    step defaultProps false s1 (Submit "cabana") = Some s2 /\
    step defaultProps false s2 (Submit "banana") = Some s3 /\
    inFlight s1 = [(0%nat, "cabbage")] /\ abortControllerRef s1 = Some 0%nat /\
    inFlight s2 = [(1%nat, "cabana")] /\ abortControllerRef s2 = None /\
    signalReason 0 s2 = Some abortError /\
    inFlight s3 = [(1%nat, "cabana"); (2%nat, "banana")] /\
    signalReason 1 s3 = None /\ signalReason 2 s3 = None /\
    run defaultProps false initialState threeSubmissions = Some s3.
Proof.
  do 3 eexists.
  split; [reflexivity|]. split; [reflexivity|]. split; [reflexivity|].
  repeat split; reflexivity.
Qed.

(** What [validateWord] does achieve: the controller the ref holds is
    aborted, and a request of that controller is no longer in flight
    after the call. *)
Lemma validateWord_aborts_current props flag s word previous call :
  abortControllerRef s = Some previous ->
  calls s !! previous = Some call ->
  exists s',
    step props flag s (Submit word) = Some s' /\
    signalReason previous s' <> None.
Proof.
  intros Href Hcall.
  assert (Hne : previous <> List.length (calls s)).
  { apply lookup_lt_Some in Hcall. lia. }
  assert (Hentered : exists call',
             calls (entered word s) !! previous = Some call' /\ c_reason call' <> None).
  { unfold entered. rewrite Href. cbn [calls setCalls].
    rewrite lookup_app_l by (rewrite abortSignal_length; apply (lookup_lt_Some _ _ _ Hcall)).
    unfold abortSignal. rewrite Hcall.
    destruct (c_reason call) eqn:Hr.
    - exists call. rewrite Hcall, Hr. split; [reflexivity|discriminate].
    - eexists. cbn [calls setCalls].
      rewrite list_lookup_insert_eq by apply (lookup_lt_Some _ _ _ Hcall).
      split; [reflexivity|discriminate]. }
  destruct Hentered as (call' & Hl & Hr).
  assert (Hv : exists call'',
             calls (validateWord props word s) !! previous = Some call'' /\
             c_reason call'' <> None).
  { rewrite validateWord_unfold.
    destruct (firstFailure _) as [check|].
    - exists call'. split; [exact Hl|exact Hr].
    - unfold checkDictionaryAPI.
      cbn [dictionaryCache setIsValidating].
      destruct (Map.get _ _) as [v|].
      + unfold applyResult. rewrite finallyBlock_lookup_ne by (apply not_eq_sym, Hne).
        exists call'. split; [destruct v; exact Hl|exact Hr].
      + cbv zeta.
        match goal with |- context [signalReason ?c ?x] => destruct (signalReason c x) end.
        * unfold catchBlock.
          repeat match goal with
                 | |- context [if ?b then _ else _] => destruct b
                 | |- context [match errorTypeOf ?e ?r with _ => _ end] =>
                     destruct (errorTypeOf e r)
                 end;
            unfold applyThrown;
            rewrite ?finallyBlock_lookup_ne, ?setCont_lookup_ne by (apply not_eq_sym, Hne);
            exists call'; (split; [|exact Hr]);
            repeat match goal with |- context [if ?b then _ else _] => destruct b end;
            exact Hl.
        * rewrite setCont_lookup_ne by (apply not_eq_sym, Hne).
          exists call'. split; [exact Hl|exact Hr]. }
  destruct Hv as (call'' & Hl' & Hr').
  unfold step. rewrite Href.
  destruct (rejectedByAbort previous s) as [[w n]|].
  - eexists. split; [reflexivity|].
    rewrite catchBlock_abortError. unfold signalReason.
    rewrite (finallyBlock_lookup _ _ _ Hl'). exact Hr'.
  - eexists. split; [reflexivity|]. unfold signalReason. rewrite Hl'. exact Hr'.
Qed.

(** C2.  The first call for cabbage fails to connect and waits for its
    retry.  A second call for the same word supersedes it (the signal of
    the first is aborted), is answered by the dictionary, and the word is
    accepted.  When the retry timer of the first call fires, the retry
    finds the word in the cache and returns [true] without looking at the
    signal; [validateWord] does not look at it either, and the superseded
    call calls [onValidWord]: the word is accepted a second time.  The
    same happens when the call that supersedes the first one is for
    another word. *)
Theorem superseded_call_is_applied :
  exists s4 s6,
    run defaultProps false initialState
      [Submit "cabbage"; Settle 0 failedToFetch;
       Submit "cabbage"; Settle 1 (okResponse [Some "cabbage"])] = Some s4 /\
    signalReason 0 s4 = Some abortError /\
    foundWords s4 = ["cabbage"] /\
    run defaultProps false s4 [Elapse 1000; Fire 0] = Some s6 /\
    foundWords s6 = ["cabbage"; "cabbage"] /\
    run defaultProps false initialState supersededRetry = Some s6 /\
    option_map foundWords (run defaultProps false initialState supersededRetryOther)
      = Some ["cabbage"; "cabbage"].
Proof.
  do 2 eexists.
  split; [vm_compute; reflexivity|].
  split; [reflexivity|]. split; [reflexivity|].
  split; [vm_compute; reflexivity|].
  repeat split; reflexivity.
Qed.

(** ** The size of the cache *)

(** One lookup after the other, the cache stays at its limit and loses
    its oldest key: after 1001 lookups the first key is the second word
    looked up. *)
Lemma sequential_lookups_evict_oldest :
  option_map (fun s => (Map.size (dictionaryCache s), Map.firstKey (dictionaryCache s)))
    (run defaultProps false initialState (lookups 0 1001))
  = Some (1000, Some (filler 1)).
Proof. vm_compute. reflexivity. Qed.

(** C8.  With the cache at its limit of 1000 entries, a first call evicts
    the oldest entry and is then superseded; the second and the third
    call find 999 entries, evict nothing, and are both in flight (as in
    [two_requests_in_flight]); each stores its answer, and the cache has
    1001 entries. *)
Theorem cache_exceeds_its_limit :
  CACHE_SIZE_LIMIT API_CONFIG = 1000 /\
  option_map (fun s => Map.size (dictionaryCache s))
    (run defaultProps false initialState (lookups 0 1000)) = Some 1000 /\
  option_map (fun s => Map.size (dictionaryCache s))
    (run defaultProps false initialState overlappingLookups) = Some 1001.
Proof.
  split; [reflexivity|]. split.
  - vm_compute. reflexivity.
  - vm_compute. reflexivity.
Qed.

(** The empty word as the oldest key is never evicted (line 248 tests the
    key for truth), and the cache then grows past its limit one lookup
    after the other. *)
Lemma empty_key_is_never_evicted :
  option_map (fun s => (Map.size (dictionaryCache s), Map.firstKey (dictionaryCache s)))
    (run permissiveProps false initialState emptyKeyLookups)
  = Some (1001, Some EmptyString).
Proof. vm_compute. reflexivity. Qed.

(** ** Progress *)









(** [progress] as a function of the two lengths. *)
Lemma progress_monotone_in_length found found' puzzleData :
  (List.length found <= List.length found')%nat ->
  (progress found puzzleData <= progress found' puzzleData)%Q.
Proof.
  intros Hlen. unfold progress.
  destruct puzzleData as [p|]; [|apply Qle_refl].
  destruct (List.length (validWords p)) as [|total]; [apply Qle_refl|].
  cbn [Nat.eqb]. unfold Qdiv. apply Qmult_le_compat_r.
  - rewrite <- Zle_Qle. lia.
  - apply Qinv_le_0_compat. replace 0%Q with (inject_Z 0) by reflexivity.
    rewrite <- Zle_Qle. lia.
Qed.






(** * Beyond the claims *)

(** ** Trimming and lower case *)

Lemma lowerChar_isWhiteSpace c : Js.isWhiteSpace (Js.lowerChar c) = Js.isWhiteSpace c.
Proof. destruct c as [[] [] [] [] [] [] [] []]; reflexivity. Qed.

Lemma lowerChar_idempotent c : Js.lowerChar (Js.lowerChar c) = Js.lowerChar c.
Proof. destruct c as [[] [] [] [] [] [] [] []]; reflexivity. Qed.

Lemma toLowerCase_idempotent s : Js.toLowerCase (Js.toLowerCase s) = Js.toLowerCase s.
Proof.
  unfold Js.toLowerCase. induction s as [|c r IH]; cbn; [reflexivity|].
  rewrite lowerChar_idempotent, IH. reflexivity.
Qed.

Lemma toLowerCase_length s : String.length (Js.toLowerCase s) = String.length s.
Proof. unfold Js.toLowerCase. induction s as [|c r IH]; cbn; congruence. Qed.

Lemma toLowerCase_trimStart s :
  Js.toLowerCase (Js.trimStart s) = Js.trimStart (Js.toLowerCase s).
Proof.
  unfold Js.toLowerCase. induction s as [|c r IH]; cbn; [reflexivity|].
  rewrite lowerChar_isWhiteSpace. destruct (Js.isWhiteSpace c); [exact IH|reflexivity].
Qed.

Lemma toLowerCase_trimEnd s :
  Js.toLowerCase (Js.trimEnd s) = Js.trimEnd (Js.toLowerCase s).
Proof.
  unfold Js.toLowerCase. induction s as [|c r IH]; cbn; [reflexivity|].
  rewrite <- IH, lowerChar_isWhiteSpace.
  destruct (Js.trimEnd r); cbn; [destruct (Js.isWhiteSpace c)|]; reflexivity.
Qed.

Lemma toLowerCase_trim s : Js.toLowerCase (Js.trim s) = Js.trim (Js.toLowerCase s).
Proof. unfold Js.trim. rewrite toLowerCase_trimEnd, toLowerCase_trimStart. reflexivity. Qed.

Lemma trimStart_startsClean s : startsClean (Js.trimStart s).
Proof.
  induction s as [|c r IH]; cbn; [exact I|].
  destruct (Js.isWhiteSpace c) eqn:E; [exact IH|exact E].
Qed.

Lemma trimStart_fixed s : startsClean s -> Js.trimStart s = s.
Proof. destruct s as [|c r]; cbn; [reflexivity|]. intros ->. reflexivity. Qed.

Lemma trimEnd_startsClean s : startsClean s -> startsClean (Js.trimEnd s).
Proof.
  destruct s as [|c r]; cbn; [exact id|]. intros H.
  destruct (Js.trimEnd r); [rewrite H|]; exact H.
Qed.

Lemma trimEnd_cons c r :
  Js.trimEnd (String c r) =
  match Js.trimEnd r with
  | EmptyString => if Js.isWhiteSpace c then EmptyString else String c EmptyString
  | r' => String c r'
  end.
Proof. reflexivity. Qed.

Lemma trimEnd_idempotent s : Js.trimEnd (Js.trimEnd s) = Js.trimEnd s.
Proof.
  induction s as [|c r IH]; [reflexivity|]. rewrite trimEnd_cons.
  destruct (Js.trimEnd r) as [|c' r'] eqn:E.
  - destruct (Js.isWhiteSpace c) eqn:Ec; [reflexivity|]. cbn. rewrite Ec. reflexivity.
  - rewrite trimEnd_cons, IH. reflexivity.
Qed.

Lemma trim_idempotent s : Js.trim (Js.trim s) = Js.trim s.
Proof.
  unfold Js.trim.
  rewrite (trimStart_fixed (Js.trimEnd (Js.trimStart s))).
  - apply trimEnd_idempotent.
  - apply trimEnd_startsClean, trimStart_startsClean.
Qed.

Lemma trimStart_length s :
  (String.length (Js.trimStart s) <= String.length s)%nat /\
  (String.length (Js.trimStart s) = String.length s -> Js.trimStart s = s).
Proof.
  induction s as [|c r [IH1 IH2]]; cbn; [split; [lia|reflexivity]|].
  destruct (Js.isWhiteSpace c); cbn; split; try lia; try reflexivity.
Qed.

Lemma trimEnd_length s :
  (String.length (Js.trimEnd s) <= String.length s)%nat /\
  (String.length (Js.trimEnd s) = String.length s -> Js.trimEnd s = s).
Proof.
  induction s as [|c r [IH1 IH2]]; cbn; [split; [lia|reflexivity]|].
  destruct (Js.trimEnd r) as [|c' r'] eqn:E.
  - destruct (Js.isWhiteSpace c); cbn; split; try lia.
    intros H. destruct r; [reflexivity|cbn in H; lia].
  - cbn in *. split; [lia|]. intros H. rewrite IH2 by lia. reflexivity.
Qed.

Lemma trim_length_fixed s : String.length (Js.trim s) = String.length s -> Js.trim s = s.
Proof.
  unfold Js.trim. intros H.
  destruct (trimStart_length s) as [H1 H2].
  destruct (trimEnd_length (Js.trimStart s)) as [H3 H4].
  rewrite H4 by lia. apply H2. lia.
Qed.

(** An answer that matches after trimming matches only a trimmed text. *)
Lemma match_needs_trimmed answer correctAnswer :
  Js.toLowerCase (Js.trim answer) = Js.toLowerCase correctAnswer ->
  Js.trim correctAnswer = correctAnswer.
Proof.
  intros H. apply trim_length_fixed.
  rewrite <- (toLowerCase_length (Js.trim correctAnswer)), toLowerCase_trim, <- H.
  rewrite <- toLowerCase_trim, trim_idempotent, H. apply toLowerCase_length.
Qed.

(** X18.  [handleSubmit] of [FinalTrivia]: a blank answer sets the prompt
    and is not counted as an attempt; any other answer is counted; the
    answer is correct exactly when it equals the expected one after
    trimming the input and ignoring case.  The expected answer is not
    trimmed, so one that is empty or has white space around it can never
    be matched. *)
Theorem finalTriviaSubmit_outcome correctAnswer st :
  let st' := finalTriviaSubmit correctAnswer st in
  let answer := Js.trim (userAnswer st) in
  (answer = EmptyString ->
     attempts st' = attempts st /\ isCorrect st' = isCorrect st /\
     error st' = "Please enter an answer" /\ timers st' = timers st) /\
  (answer <> EmptyString -> attempts st' = attempts st + 1) /\
  (isCorrect st = false ->
     (isCorrect st' = true
      <-> answer <> EmptyString /\ Js.toLowerCase answer = Js.toLowerCase correctAnswer)) /\
  (isCorrect st = false ->
     Js.trim correctAnswer <> correctAnswer \/ correctAnswer = EmptyString ->
     isCorrect st' = false).
Proof.
  cbv zeta. unfold finalTriviaSubmit.
  destruct (String.eqb_spec (Js.trim (userAnswer st)) EmptyString) as [He|Hne].
  - cbn. repeat split; try congruence; intros; try tauto.
  - destruct (String.eqb_spec (Js.toLowerCase (Js.trim (userAnswer st)))
                (Js.toLowerCase correctAnswer)) as [Hm|Hm]; cbn.
    + repeat split; try congruence; try tauto.
      intros _ [Hbad | ->]; exfalso.
      * apply Hbad. eapply match_needs_trimmed, Hm.
      * apply Hne. apply (f_equal String.length) in Hm.
        rewrite toLowerCase_length in Hm. cbn in Hm.
        destruct (Js.trim (userAnswer st)); [reflexivity|discriminate].
    + repeat split; try congruence; try tauto.
Qed.

(** ** What a call leaves of the other calls *)

Lemma applyResult_lookup_ne c c' w v s :
  c <> c' -> calls (applyResult c w v s) !! c' = calls s !! c'.
Proof.
  intros H. unfold applyResult. rewrite finallyBlock_lookup_ne by exact H.
  destruct v; reflexivity.
Qed.

Lemma applyThrown_lookup_ne c c' e s :
  c <> c' -> calls (applyThrown c e s) !! c' = calls s !! c'.
Proof.
  intros H. unfold applyThrown. rewrite finallyBlock_lookup_ne by exact H.
  destruct (negb _ || _); reflexivity.
Qed.

Lemma catchBlock_lookup_ne c c' w n e r s :
  c <> c' -> calls (catchBlock c w n e r s) !! c' = calls s !! c'.
Proof.
  intros H. unfold catchBlock.
  destruct (isPlainAbort e); [apply applyThrown_lookup_ne, H|].
  destruct (errorTypeOf e r) as [t|e']; [|apply applyThrown_lookup_ne, H].
  destruct (_ && _); [apply setCont_lookup_ne, H|apply applyThrown_lookup_ne, H].
Qed.

Lemma checkDictionaryAPI_lookup_ne c c' w n s :
  c <> c' -> calls (checkDictionaryAPI c w n s) !! c' = calls s !! c'.
Proof.
  intros H. unfold checkDictionaryAPI.
  destruct (Map.get (dictionaryCache s) w) as [v|]; [apply applyResult_lookup_ne, H|].
  cbv zeta.
  match goal with |- context [signalReason c ?x] => destruct (signalReason c x) end.
  - rewrite catchBlock_lookup_ne by exact H. reflexivity.
  - rewrite setCont_lookup_ne by exact H. reflexivity.
Qed.

(** The calls made before are as [validateWord] found them, but for the
    abort of the controller in the ref. *)
Lemma validateWord_lookup_old props word s c' :
  (c' < List.length (calls s))%nat ->
  calls (validateWord props word s) !! c' =
  match abortControllerRef s with
  | Some current => calls (abortSignal current abortError s) !! c'
  | None => calls s !! c'
  end.
Proof.
  intros Hlt.
  assert (He : calls (entered word s) !! c' =
               match abortControllerRef s with
               | Some current => calls (abortSignal current abortError s) !! c'
               | None => calls s !! c'
               end).
  { unfold entered. cbn [calls setCalls].
    destruct (abortControllerRef s) as [current|].
    - apply lookup_app_l. rewrite abortSignal_length. exact Hlt.
    - apply lookup_app_l. exact Hlt. }
  rewrite validateWord_unfold.
  destruct (firstFailure _) as [check|]; [exact He|].
  rewrite checkDictionaryAPI_lookup_ne by lia. exact He.
Qed.

Lemma abortSignal_lookup c r s call :
  calls s !! c = Some call -> c_reason call = None ->
  calls (abortSignal c r s) !! c =
  Some {| c_word := c_word call; c_reason := Some r; c_cont := c_cont call |}.
Proof.
  intros H Hr. unfold abortSignal. rewrite H, Hr. cbn [calls setCalls].
  apply list_lookup_insert_eq, (lookup_lt_Some _ _ _ H).
Qed.

Lemma abortSignal_lookup_ne c c' r s :
  c <> c' -> calls (abortSignal c r s) !! c' = calls s !! c'.
Proof.
  intros H. unfold abortSignal. destruct (calls s !! c) as [call|]; [|reflexivity].
  destruct (c_reason call); [reflexivity|].
  cbn [calls setCalls]. apply list_lookup_insert_ne, H.
Qed.

(** X4.  A new call of [validateWord], whatever its word, aborts the
    request of the controller in the ref: that call returns with its
    signal aborted, the network's later answer to it and its timer can no
    longer happen, and it leaves no trace in the message, the tracked
    events, the words found or the cache, which are those of the new call
    alone. *)
Theorem cancelled_call_is_dropped props flag s word p w n t :
  abortControllerRef s = Some p ->
  calls s !! p = Some {| c_word := w; c_reason := None; c_cont := AwaitFetch n t |} ->
  exists s',
    step props flag s (Submit word) = Some s' /\
    calls s' !! p = Some {| c_word := w; c_reason := Some abortError; c_cont := Returned |} /\
    (forall o, step props flag s' (Settle p o) = None) /\
    step props flag s' (Fire p) = None /\
    errorMessage s' = errorMessage (validateWord props word s) /\
    tracked s' = tracked (validateWord props word s) /\
    foundWords s' = foundWords (validateWord props word s) /\
    dictionaryCache s' = dictionaryCache (validateWord props word s).
Proof.
  intros Href Hcall.
  assert (Hv : calls (validateWord props word s) !! p
               = Some {| c_word := w; c_reason := Some abortError; c_cont := AwaitFetch n t |}).
  { rewrite validateWord_lookup_old by apply (lookup_lt_Some _ _ _ Hcall).
    rewrite Href. rewrite (abortSignal_lookup _ _ _ _ Hcall eq_refl). reflexivity. }
  exists (finallyBlock p (validateWord props word s)). split.
  { unfold step. rewrite Href. unfold rejectedByAbort. rewrite Hcall.
    cbn [c_reason c_cont c_word]. rewrite catchBlock_abortError. reflexivity. }
  assert (Hp : calls (finallyBlock p (validateWord props word s)) !! p
               = Some {| c_word := w; c_reason := Some abortError; c_cont := Returned |}).
  { rewrite (finallyBlock_lookup _ _ _ Hv). reflexivity. }
  destruct (finallyBlock_fields p (validateWord props word s)) as (-> & -> & -> & _ & -> & _).
  split; [exact Hp|].
  split; [intros o; unfold step; rewrite Hp; reflexivity|].
  split; [unfold step; rewrite Hp; reflexivity|].
  repeat split; reflexivity.
Qed.

(** X4: a word that is too short cancels the lookup before it. *)
Lemma cancelled_call_is_dropped_witness :
  exists s1 s2,
    step defaultProps false initialState (Submit "cabbage") = Some s1 /\
    step defaultProps false s1 (Submit "cat") = Some s2 /\
    step defaultProps false s2 (Settle 0 (okResponse [Some "cabbage"])) = None /\
    foundWords s2 = [].
Proof.
  pose (s1 := validateWord defaultProps "cabbage" initialState).
  destruct (cancelled_call_is_dropped defaultProps false s1 "cat" 0 "cabbage" 0 (Some 5000)
              eq_refl eq_refl) as (s2 & Hs2 & _ & Hsettle & _ & _ & _ & Hw & _).
  exists s1, s2. split; [reflexivity|]. split; [exact Hs2|].
  split; [apply Hsettle|]. rewrite Hw. reflexivity.
Defined.

(** ** Accepting a word *)

Lemma isDuplicate_In w validWords :
  In w validWords -> Js.toLowerCase w = w -> isDuplicate w validWords = true.
Proof.
  intros Hin Hw. unfold isDuplicate. apply existsb_exists.
  exists w. split; [exact Hin|]. rewrite Hw. apply String.eqb_refl.
Qed.

(** A submission that a local check rejects. *)
Lemma step_Submit_rejected props flag s word check :
  firstFailure (validationChecks props (Js.toLowerCase (Js.trim word)) (foundWords s))
    = Some check ->
  exists s',
    step props flag s (Submit word) = Some s' /\
    errorMessage s' = Some (checkMessage check) /\
    fetched s' = fetched s /\
    foundWords s' = foundWords s /\
    dictionaryCache s' = dictionaryCache s.
Proof.
  intros Hff.
  destruct (step_Submit props flag s word) as (s' & Hs & He & Hf & Hw & Hc & _).
  destruct (validateWord_rejected props word s check Hff) as (He' & Hf' & Hw' & Hc').
  exists s'. rewrite He, Hf, Hw, Hc. tauto.
Qed.

(** A word that is among the words found is rejected by the local rules,
    by the first of them that fails. *)
Lemma found_word_is_rejected props flag s word :
  let w := Js.toLowerCase (Js.trim word) in
  In w (foundWords s) ->
  exists s',
    step props flag s (Submit word) = Some s' /\
    errorMessage s' =
      Some (if negb (Js.length w >=? minWordLength props) then tooShortMessage props
            else if negb (Js.includes w (Js.toLowerCase (centerLetter props)))
                 then missingCenterMessage props
                 else duplicateMessage) /\
    fetched s' = fetched s /\ foundWords s' = foundWords s /\
    dictionaryCache s' = dictionaryCache s.
Proof.
  intros w Hin.
  assert (Hdup : isDuplicate w (foundWords s) = true).
  { apply isDuplicate_In; [exact Hin|]. apply toLowerCase_idempotent. }
  pose proof (firstFailure_checks props w (foundWords s)) as Hff.
  rewrite Hdup in Hff.
  destruct (negb (Js.length w >=? minWordLength props));
    [|destruct (negb (Js.includes w (Js.toLowerCase (centerLetter props))))];
    apply (step_Submit_rejected props flag s word _ Hff).
Qed.

(** X3.  A call whose request is answered with an array whose first
    entry has a word, whatever that word is, appends the call's word to
    the words found and clears the message; a [validateWord] for that
    word right after is rejected by the local rules (as a duplicate when
    the word passes the first two), fetches nothing and accepts
    nothing. *)
Theorem accepted_word_is_rejected_next props flag s c call n t r first more :
  calls s !! c = Some call ->
  c_cont call = AwaitFetch n t ->
  ok r = true ->
  json r = Normal (JsonArray (Some first :: more)) ->
  exists s',
    step props flag s (Settle c (Responds r)) = Some s' /\
    foundWords s' = (foundWords s ++ [c_word call])%list /\
    errorMessage s' = None /\
    forall word,
      Js.toLowerCase (Js.trim word) = c_word call ->
      exists s'',
        step props flag s' (Submit word) = Some s'' /\
        foundWords s'' = foundWords s' /\
        fetched s'' = fetched s' /\
        errorMessage s'' =
          Some (if negb (Js.length (c_word call) >=? minWordLength props)
                then tooShortMessage props
                else if negb (Js.includes (c_word call) (Js.toLowerCase (centerLetter props)))
                     then missingCenterMessage props
                     else duplicateMessage).
Proof.
  intros Hcall Hcont Hok Hjson.
  eexists. split; [exact (step_Settle_value props flag s c call n t r _ Hcall Hcont Hok Hjson)|].
  cbn [isValidData].
  match goal with |- context [applyResult c ?w true ?x] =>
    destruct (applyResult_fields c w true x) as (_ & He & Hw & _);
    set (s' := applyResult c w true x) in * end.
  cbn [foundWords setCache] in Hw.
  split; [exact Hw|]. split; [exact He|].
  intros word Hword.
  destruct (found_word_is_rejected props flag s' word) as (s'' & Hs & Hm & Hf & Hfw & _).
  { rewrite Hword, Hw. apply in_or_app. right. left. reflexivity. }
  rewrite Hword in Hm.
  exists s''. tauto.
Qed.

(** X3: cabbage accepted on an answer whose first entry is another
    spelling, then rejected as a duplicate. *)
Lemma accepted_word_is_rejected_next_witness :
  exists s s' s'',
    step defaultProps false initialState (Submit "Cabbage") = Some s /\
    step defaultProps false s (Settle 0 (okResponse [Some "Cabbage, n."; None])) = Some s' /\
    foundWords s' = ["cabbage"] /\
    step defaultProps false s' (Submit " cabbage ") = Some s'' /\
    errorMessage s'' = Some "You already found this word!" /\
    foundWords s'' = ["cabbage"].
Proof.
  pose (s := validateWord defaultProps "Cabbage" initialState).
  destruct (accepted_word_is_rejected_next defaultProps false s 0
              {| c_word := "cabbage"; c_reason := None; c_cont := AwaitFetch 0 (Some 5000) |}
              0 (Some 5000)
              {| ok := true; status := 200;
                 json := Normal (JsonArray [Some "Cabbage, n."; None]) |}
              "Cabbage, n." [None]
              eq_refl eq_refl eq_refl eq_refl) as (s' & Hs' & Hw & _ & Hnext).
  destruct (Hnext " cabbage " eq_refl) as (s'' & Hs'' & Hw'' & _ & Hm).
  exists s, s', s''. rewrite Hw'', Hw.
  repeat split; try assumption; reflexivity.
Defined.

(** ** Messages *)

Lemma errorTypeOf_normal e r : exists t, errorTypeOf e r = Normal t.
Proof.
  unfold errorTypeOf, getErrorType. destruct (apiType e); [eauto|].
  destruct (_ && _); [eauto|]. destruct (_ && _); [eauto|].
  destruct r as [r|]; [|eauto].
  destruct (_ =? _); [eauto|]. destruct (_ >=? _); [eauto|]. destruct (_ =? _); eauto.
Qed.

Lemma applyThrown_plainAbort c e s :
  isPlainAbort e = true -> applyThrown c e s = finallyBlock c s.
Proof.
  unfold isPlainAbort, applyThrown. intros H. apply andb_true_iff in H as [H1 H2].
  rewrite H1. apply negb_true_iff in H2. rewrite H2. reflexivity.
Qed.

(** What the [catch] block does, case by case. *)
Lemma catchBlock_cases c w n e r s :
  (isPlainAbort e = true /\ catchBlock c w n e r s = finallyBlock c s) \/
  (exists t, isPlainAbort e = false /\ errorTypeOf e r = Normal t /\
     ((n <? MAX_RETRIES API_CONFIG) && retryable t = true /\
      catchBlock c w n e r s
        = setCont c (AwaitDelay n (now s + RETRY_DELAY_MS API_CONFIG)) s
      \/
      (n <? MAX_RETRIES API_CONFIG) && retryable t = false /\
      catchBlock c w n e r s
        = applyThrown c (DictionaryAPIError t (getErrorMessage t) (statusCode e)) s)).
Proof.
  unfold catchBlock. destruct (isPlainAbort e) eqn:Ha.
  - left. split; [reflexivity|]. apply applyThrown_plainAbort, Ha.
  - right. destruct (errorTypeOf_normal e r) as [t Ht]. exists t. rewrite Ht.
    split; [reflexivity|]. split; [reflexivity|].
    destruct (_ && _); [left|right]; split; reflexivity.
Qed.

Lemma catchBlock_message props c w n e r s : messageKept props s (catchBlock c w n e r s).
Proof.
  destruct (catchBlock_cases c w n e r s) as [[_ ->] | (t & _ & _ & [[_ ->] | [_ ->]])].
  - left. apply finallyBlock_fields.
  - left. apply setCont_fields.
  - right. right. exists (getErrorMessage t). rewrite applyThrown_apiError.
    split; [reflexivity|]. do 4 right. exists t. reflexivity.
Qed.

Lemma applyResult_message props c w v s : messageKept props s (applyResult c w v s).
Proof.
  destruct (applyResult_fields c w v s) as (_ & He & _). right. rewrite He.
  destruct v; [left; reflexivity|right].
  eexists. split; [reflexivity|]. do 3 right. left. reflexivity.
Qed.

Lemma checkDictionaryAPI_message props c w n s :
  messageKept props s (checkDictionaryAPI c w n s).
Proof.
  unfold checkDictionaryAPI.
  destruct (Map.get (dictionaryCache s) w) as [v|]; [apply applyResult_message|].
  cbv zeta.
  match goal with |- context [signalReason c ?x] => destruct (signalReason c x) end.
  - match goal with |- messageKept _ _ (catchBlock ?a ?b ?n0 ?e ?r ?x) =>
      pose proof (catchBlock_message props a b n0 e r x) as H end.
    exact H.
  - left.
    match goal with |- context [setCont ?a ?k ?x] =>
      destruct (setCont_fields a k x) as (_ & _ & _ & -> & _) end.
    reflexivity.
Qed.

(** X5.  Whatever a task does to [errorMessage], the message after it is
    the one before, none, or one of the fixed texts of the hook: the raw
    text of an error of the network or of the response never gets
    there. *)
Theorem only_user_messages props flag s e s' :
  step props flag s e = Some s' ->
  errorMessage s' = errorMessage s \/ errorMessage s' = None \/
  exists m, errorMessage s' = Some m /\ isUserMessage props m.
Proof.
  change (step props flag s e = Some s' -> messageKept props s s').
  destruct e as [word|c o|c|dt].
  - intros Hs.
    destruct (step_Submit props flag s word) as (s1 & Hs1 & He & _).
    rewrite Hs in Hs1. injection Hs1 as <-.
    unfold messageKept. rewrite He. rewrite validateWord_unfold.
    destruct (firstFailure _) as [check|] eqn:Hff.
    + right. right. exists (checkMessage check). split; [reflexivity|].
      rewrite firstFailure_checks in Hff. unfold isUserMessage.
      destruct (negb _); [injection Hff as <-; tauto|].
      destruct (negb _); [injection Hff as <-; tauto|].
      destruct (isDuplicate _ _); [injection Hff as <-; tauto|discriminate].
    + match goal with |- context [checkDictionaryAPI ?c ?w ?n ?x] =>
        destruct (checkDictionaryAPI_message props c w n x) as [H|H] end.
      * right. left. rewrite H. cbn [errorMessage setIsValidating].
        apply entered_fields.
      * right. exact H.
  - unfold step. destruct (calls s !! c) as [call|]; [|discriminate].
    destruct (c_cont call); try discriminate.
    intros H. injection H as <-. unfold resume.
    destruct (tryBlock o) as [[v|err] r].
    + match goal with |- context [applyResult ?a ?b ?v0 ?x] =>
        destruct (applyResult_message props a b v0 x) as [H|H] end;
        [left; exact H|right; exact H].
    + apply catchBlock_message.
  - unfold step. destruct (calls s !! c) as [call|]; [|discriminate].
    destruct (c_cont call) as [|n [due|]|n due]; try discriminate.
    + destruct (due <=? now s); [|discriminate].
      intros H. injection H as <-.
      destruct flag; [destruct (rejectedByAbort c s) as [[w k]|]|].
      * match goal with |- messageKept _ _ (catchBlock ?a ?b ?n0 ?e ?r ?x) =>
          destruct (catchBlock_message props a b n0 e r x) as [H|H] end.
        -- left. rewrite H. apply abortSignal_fields.
        -- right. exact H.
      * left. apply setCont_fields.
      * left. apply setCont_fields.
    + destruct (due <=? now s); [|discriminate].
      intros H. injection H as <-. apply checkDictionaryAPI_message.
  - unfold step. destruct (0 <=? dt); [|discriminate].
    intros H. injection H as <-. left. reflexivity.
Qed.

(** X5: the text of a rejection is not shown. *)
Lemma only_user_messages_witness :
  exists s s',
    step defaultProps false initialState (Submit "cabbage") = Some s /\
    step defaultProps false s (Settle 0 (Rejects (Error "socket hang up"))) = Some s' /\
    errorMessage s' <> Some "socket hang up".
Proof.
  eexists. eexists. split; [reflexivity|]. split; [reflexivity|].
  match goal with |- errorMessage ?x <> _ =>
    destruct (only_user_messages defaultProps false
                (validateWord defaultProps "cabbage" initialState)
                (Settle 0 (Rejects (Error "socket hang up"))) x eq_refl)
      as [H|[H|(m & H & Hm)]]; rewrite H end; try discriminate.
  intros Heq. injection Heq as ->.
  destruct Hm as [Hm|[Hm|[Hm|[Hm|[t Hm]]]]]; try discriminate; destruct t; discriminate.
Defined.

(** ** One lookup and the size of the cache *)

Lemma Map_set_new m k v : Map.get m k = None -> Map.set m k v = (m ++ [(k, v)])%list.
Proof.
  induction m as [|[k' v'] m IH]; cbn; [reflexivity|].
  destruct (String.eqb k' k); [discriminate|]. intros H. rewrite IH by exact H. reflexivity.
Qed.

Lemma evictIfFull_at_limit m :
  Map.size m <= CACHE_SIZE_LIMIT API_CONFIG ->
  Map.firstKey m <> Some EmptyString ->
  evictIfFull m = (if Map.size m =? CACHE_SIZE_LIMIT API_CONFIG then tl m else m) /\
  Map.size (evictIfFull m) < CACHE_SIZE_LIMIT API_CONFIG.
Proof.
  unfold evictIfFull, Map.size, Map.firstKey. cbn [CACHE_SIZE_LIMIT API_CONFIG].
  intros Hsize Hkey.
  destruct (Z.eqb_spec (Z.of_nat (List.length m)) 1000) as [He|Hne].
  - replace (Z.of_nat (List.length m) >=? 1000) with true by (symmetry; apply Z.geb_le; lia).
    destruct m as [|[k v] m]; [cbn in He; lia|].
    destruct (String.eqb_spec k EmptyString) as [->|Hk]; [congruence|].
    cbn [Map.delete]. rewrite String.eqb_refl. cbn [tl List.length] in *. split; [reflexivity|lia].
  - replace (Z.of_nat (List.length m) >=? 1000) with false by (symmetry; rewrite Z.geb_leb; apply Z.leb_gt; lia).
    split; [reflexivity|lia].
Qed.

(** X6.  A lookup that no other lookup overlaps keeps the cache within
    its limit, when the oldest key is not the empty word: at the limit the
    oldest entry is dropped, and the answer is stored as the newest
    entry. *)
Theorem lookup_keeps_the_limit props flag s word r data :
  let w := Js.toLowerCase (Js.trim word) in
  let c := List.length (calls s) in
  Map.size (dictionaryCache s) <= CACHE_SIZE_LIMIT API_CONFIG ->
  Map.firstKey (dictionaryCache s) <> Some EmptyString ->
  firstFailure (validationChecks props w (foundWords s)) = None ->
  Map.get (dictionaryCache s) w = None ->
  ok r = true ->
  json r = Normal (JsonArray data) ->
  exists s',
    run props flag s [Submit word; Settle c (Responds r)] = Some s' /\
    Map.size (dictionaryCache s') <= CACHE_SIZE_LIMIT API_CONFIG /\
    dictionaryCache s' =
      ((if Map.size (dictionaryCache s) =? CACHE_SIZE_LIMIT API_CONFIG
        then tl (dictionaryCache s) else dictionaryCache s)
       ++ [(w, isValidData data)])%list.
Proof.
  intros w c Hsize Hkey Hpass Hmiss Hok Hjson.
  destruct (step_Submit_fetch props flag s word Hpass Hmiss)
    as (s1 & Hs1 & Hc1 & Hm1 & _).
  fold w c in Hc1.
  destruct (evictIfFull_at_limit _ Hsize Hkey) as (Hev & Hlt).
  eexists. split.
  { rewrite (run_cons _ _ _ _ _ _ Hs1). cbn [run]. unfold step.
    rewrite Hc1. cbn [c_cont c_word]. reflexivity. }
  unfold resume. rewrite (tryBlock_array r data Hok Hjson).
  match goal with |- context [applyResult c w ?v ?x] =>
    destruct (applyResult_fields c w v x) as (-> & _) end.
  cbn [dictionaryCache setCache]. rewrite Hm1.
  rewrite Map_set_new by (apply evictIfFull_get_None, Hmiss).
  split; [|f_equal; exact Hev].
  unfold Map.size in *. rewrite length_app. cbn [List.length]. lia.
Qed.

(** X6: the first lookup. *)
Lemma lookup_keeps_the_limit_witness :
  exists s',
    run defaultProps false initialState [Submit "zebra"; Settle 0 (okResponse [])] = Some s' /\
    dictionaryCache s' = [("zebra", false)].
Proof.
  destruct (lookup_keeps_the_limit defaultProps false initialState "zebra"
              {| ok := true; status := 200; json := Normal (JsonArray []) |} [])
    as (s' & Hrun & _ & Hc); try reflexivity; try discriminate.
  exists s'. split; [exact Hrun|exact Hc].
Defined.

(** X7.  The eviction is made when the lookup starts, whether or not it
    stores anything: a lookup that fails with a kind that is not retried
    stores nothing, and on a cache at its limit it has dropped the oldest
    entry all the same. *)
Theorem failed_lookup_still_evicts props flag s word o t :
  let w := Js.toLowerCase (Js.trim word) in
  let c := List.length (calls s) in
  firstFailure (validationChecks props w (foundWords s)) = None ->
  Map.get (dictionaryCache s) w = None ->
  failsWith o t ->
  retryable t = false ->
  exists s',
    run props flag s [Submit word; Settle c o] = Some s' /\
    dictionaryCache s' = evictIfFull (dictionaryCache s) /\
    Map.get (dictionaryCache s') w = None /\
    (Map.size (dictionaryCache s) = CACHE_SIZE_LIMIT API_CONFIG ->
     Map.firstKey (dictionaryCache s) <> Some EmptyString ->
     dictionaryCache s' = tl (dictionaryCache s)).
Proof.
  intros w c Hpass Hmiss Hfail Hno.
  destruct (step_Submit_fetch props flag s word Hpass Hmiss)
    as (s1 & Hs1 & Hc1 & Hm1 & _).
  fold w c in Hc1.
  destruct (step_Settle_fail props flag s1 c w 0 _ o t Hc1 Hfail)
    as (s2 & Hs2 & _ & _ & Hm2 & _); [left; exact Hno|].
  exists s2. split.
  { rewrite (run_cons _ _ _ _ _ _ Hs1), (run_cons _ _ _ _ _ _ Hs2). reflexivity. }
  rewrite Hm2, Hm1. split; [reflexivity|].
  split; [apply evictIfFull_get_None, Hmiss|].
  intros Hsize Hkey.
  destruct (evictIfFull_at_limit (dictionaryCache s)) as (-> & _); [lia|exact Hkey|].
  rewrite Hsize, Z.eqb_refl. reflexivity.
Qed.

(** X7: a rate-limited lookup stores nothing. *)
Lemma failed_lookup_still_evicts_witness :
  exists s',
    run defaultProps false initialState [Submit "cabbage"; Settle 0 (errorResponse 429)]
      = Some s' /\
    Map.get (dictionaryCache s') "cabbage" = None.
Proof.
  destruct (failed_lookup_still_evicts defaultProps false initialState "cabbage"
              (errorResponse 429) API_RATE_LIMIT eq_refl eq_refl)
    as (s' & Hrun & _ & Hget & _).
  - exists nullNameError, (Some {| ok := false; status := 429; json := Normal NotArray |}).
    repeat split; reflexivity.
  - reflexivity.
  - exists s'. split; [exact Hrun|exact Hget].
Defined.

(** On a cache at its limit a rate-limited lookup leaves 999 entries. *)
Lemma failed_lookup_on_full_cache :
  option_map (fun s => Map.size (dictionaryCache s))
    (run defaultProps false initialState
       (lookups 0 1000 ++ [Submit "cabbage"; Settle 1000 (errorResponse 429)]))
  = Some 999.
Proof. vm_compute. reflexivity. Qed.

(** ** Responses that are not ok *)

(** X8.  For a response that is not [ok] the body is not read and the
    kind of the failure is decided by the status alone, 429 first, then
    500 and above, then 404: of these responses exactly those with a
    status of 500 or more are retried.  (The [try] block gets there
    through the [TypeError] of [getErrorType(null, response)].) *)
Theorem status_decides_the_kind r :
  ok r = false ->
  let kind := if status r =? 429 then API_RATE_LIMIT
              else if status r >=? 500 then API_UNAVAILABLE
              else if status r =? 404 then WORD_NOT_FOUND
              else UNKNOWN in
  failsWith (Responds r) kind /\
  (forall t, failsWith (Responds r) t -> t = kind) /\
  (retryable kind = true <-> 500 <= status r) /\
  fst (tryBlock (Responds r)) = Throw nullNameError.
Proof.
  intros Hok kind.
  assert (Htry : tryBlock (Responds r) = (Throw nullNameError, Some r)).
  { unfold tryBlock. rewrite Hok. reflexivity. }
  assert (Hkind : errorTypeOf nullNameError (Some r) = Normal kind).
  { unfold errorTypeOf, getErrorType. cbn. subst kind.
    destruct (status r =? 429); [reflexivity|].
    destruct (status r >=? 500); [reflexivity|].
    destruct (status r =? 404); reflexivity. }
  split; [|split; [|split]].
  - exists nullNameError, (Some r). repeat split; [exact Htry|exact Hkind].
  - intros t (e & resp & He & _ & Ht). rewrite Htry in He. injection He as <- <-.
    rewrite Hkind in Ht. injection Ht as <-. reflexivity.
  - subst kind.
    destruct (Z.eqb_spec (status r) 429) as [E|E]; [cbn; split; [discriminate|lia]|].
    destruct (status r >=? 500) eqn:E5.
    + apply Z.geb_le in E5. cbn. split; [intros _; exact E5|reflexivity].
    + rewrite Z.geb_leb in E5. apply Z.leb_gt in E5.
      destruct (status r =? 404); cbn; split; try discriminate; lia.
  - rewrite Htry. reflexivity.
Qed.

(** X8: a 502 is a service failure. *)
Lemma status_decides_the_kind_witness :
  failsWith (errorResponse 502) API_UNAVAILABLE.
Proof.
  exact (proj1 (status_decides_the_kind
                  {| ok := false; status := 502; json := Normal NotArray |} eq_refl)).
Defined.

(** ** Aborts *)

(** X9.  A [fetch] that rejects with an error named AbortError whose
    message does not mention a timeout ends the call whatever the attempt:
    no retry, no message, no tracked event, nothing fetched, accepted or
    cached; only the [finally] block runs. *)
Theorem abort_is_silent props flag s c call n t e :
  calls s !! c = Some call ->
  c_cont call = AwaitFetch n t ->
  name e = "AbortError" ->
  Js.includes (message e) "timeout" = false ->
  exists s',
    step props flag s (Settle c (Rejects e)) = Some s' /\
    calls s' !! c = Some {| c_word := c_word call; c_reason := c_reason call;
                            c_cont := Returned |} /\
    errorMessage s' = errorMessage s /\
    tracked s' = tracked s /\
    fetched s' = fetched s /\
    foundWords s' = foundWords s /\
    dictionaryCache s' = dictionaryCache s /\
    isValidating s' = false /\
    abortControllerRef s' = None.
Proof.
  intros Hcall Hcont Hname Hmsg.
  assert (Habort : isPlainAbort e = true).
  { unfold isPlainAbort. rewrite Hname, Hmsg. reflexivity. }
  exists (finallyBlock c s). split.
  { unfold step. rewrite Hcall, Hcont. unfold resume. cbn [tryBlock].
    destruct (catchBlock_cases c (c_word call) n e None s) as [[_ ->]|(? & Hf & _)];
      [reflexivity|congruence]. }
  rewrite (finallyBlock_lookup _ _ _ Hcall).
  destruct (finallyBlock_fields c s) as (-> & -> & -> & -> & -> & _).
  split; [reflexivity|]. repeat split; try reflexivity.
  - unfold finallyBlock. 
    match goal with |- context [setCont ?a ?k ?x] =>
      destruct (setCont_fields a k x) as (_ & _ & -> & _) end. reflexivity.
  - unfold finallyBlock.
    match goal with |- context [setCont ?a ?k ?x] =>
      destruct (setCont_fields a k x) as (_ & -> & _) end. reflexivity.
Qed.

(** X9: an abort from outside the hook. *)
Lemma abort_is_silent_witness :
  exists s s',
    step defaultProps false initialState (Submit "cabbage") = Some s /\
    step defaultProps false s (Settle 0 (Rejects abortError)) = Some s' /\
    errorMessage s' = None /\ tracked s' = [] /\ inFlight s' = [].
Proof.
  pose (s := validateWord defaultProps "cabbage" initialState).
  destruct (abort_is_silent defaultProps false s 0
              {| c_word := "cabbage"; c_reason := None; c_cont := AwaitFetch 0 (Some 5000) |}
              0 (Some 5000) abortError eq_refl eq_refl eq_refl eq_refl)
    as (s' & Hs & Hc & He & Ht & _).
  exists s, s'. split; [reflexivity|]. split; [exact Hs|].
  rewrite He, Ht. split; [reflexivity|]. split; [reflexivity|].
  vm_compute in Hs. injection Hs as <-. reflexivity.
Defined.

(** ** Runs through the form *)

Lemma isDuplicate_not_In w validWords :
  isDuplicate w validWords = false ->
  (forall w', In w' validWords -> Js.toLowerCase w' = w') ->
  ~ In w validWords.
Proof.
  intros Hd Hl Hin.
  rewrite (isDuplicate_In w validWords Hin (Hl w Hin)) in Hd. discriminate.
Qed.

(** A state with the calls, the ref and the flag of a ready one, and the
    same words, is ready. *)
Lemma ready_same c w s s' :
  calls s' = calls s -> foundWords s' = foundWords s ->
  abortControllerRef s' = abortControllerRef s -> isValidating s' = isValidating s ->
  ready c w s -> ready c w s'.
Proof. unfold ready. intros -> -> -> ->. exact id. Qed.

(** Once the only call that may be pending has returned, with the words
    in order, the invariant holds. *)
Lemma finallyBlock_invariant c s :
  (forall c' call, calls s !! c' = Some call -> isPending (c_cont call) = true -> c' = c) ->
  (forall w', In w' (foundWords s) -> Js.toLowerCase w' = w') ->
  List.NoDup (foundWords s) ->
  formInvariant (finallyBlock c s).
Proof.
  intros Honly Hlow Hnd.
  destruct (finallyBlock_fields c s) as (_ & _ & Hw & _).
  split; [|rewrite Hw; split; assumption].
  intros c' call Hl Hp. exfalso.
  destruct (Nat.eq_dec c c') as [<-|Hne].
  - destruct (calls s !! c) as [call0|] eqn:E.
    + rewrite (finallyBlock_lookup _ _ _ E) in Hl. injection Hl as <-. discriminate.
    + unfold finallyBlock, setCont in Hl. cbn [calls setRef setIsValidating] in Hl.
      rewrite E in Hl. cbn [calls setRef setIsValidating] in Hl. congruence.
  - rewrite finallyBlock_lookup_ne in Hl by exact Hne.
    apply Hne. symmetry. eapply Honly; eassumption.
Qed.

Lemma applyResult_invariant c w v s : ready c w s -> formInvariant (applyResult c w v s).
Proof.
  intros (Honly & _ & _ & _ & Hd & Hw & Hlow & Hnd).
  unfold applyResult. apply finallyBlock_invariant.
  - destruct v; exact Honly.
  - destruct v; [|exact Hlow]. cbn. intros w' Hin. apply in_app_or in Hin as [Hin|[<-|[]]];
      [apply Hlow, Hin|exact Hw].
  - destruct v; [|exact Hnd]. cbn.
    apply List.NoDup_rev in Hnd. rewrite <- (rev_involutive (_ ++ _)), rev_app_distr.
    apply List.NoDup_rev. cbn. constructor; [|exact Hnd].
    rewrite <- in_rev. apply isDuplicate_not_In; assumption.
Qed.

Lemma applyThrown_invariant c w e s : ready c w s -> formInvariant (applyThrown c e s).
Proof.
  intros (Honly & _ & _ & _ & _ & _ & Hlow & Hnd).
  unfold applyThrown. apply finallyBlock_invariant; destruct (negb _ || _); assumption.
Qed.

Lemma setCont_invariant c w k s : ready c w s -> formInvariant (setCont c k s).
Proof.
  intros (Honly & (call0 & Hc0 & Hw0) & Href & Hval & Hd & Hw & Hlow & Hnd).
  destruct (setCont_fields c k s) as (_ & Hr & Hv & _ & Hf & _).
  split; [|rewrite Hf; split; assumption].
  intros c' call Hl Hp. rewrite Hr, Hv, Hf.
  destruct (Nat.eq_dec c c') as [<-|Hne].
  - rewrite (setCont_lookup _ _ _ _ Hc0) in Hl. injection Hl as <-.
    cbn [c_word]. rewrite Hw0. tauto.
  - rewrite setCont_lookup_ne in Hl by exact Hne.
    exfalso. apply Hne. symmetry. eapply Honly; eassumption.
Qed.

Lemma catchBlock_invariant c w n e r s :
  ready c w s -> formInvariant (catchBlock c w n e r s).
Proof.
  intros H.
  destruct (catchBlock_cases c w n e r s) as [[_ ->] | (t & _ & _ & [[_ ->] | [_ ->]])].
  - destruct H as (Honly & _ & _ & _ & _ & _ & Hlow & Hnd).
    apply finallyBlock_invariant; assumption.
  - apply (setCont_invariant c w), H.
  - apply (applyThrown_invariant c w), H.
Qed.

Lemma checkDictionaryAPI_invariant c w n s :
  ready c w s -> formInvariant (checkDictionaryAPI c w n s).
Proof.
  intros H. unfold checkDictionaryAPI.
  destruct (Map.get (dictionaryCache s) w) as [v|]; [apply applyResult_invariant, H|].
  cbv zeta.
  match goal with |- context [signalReason c ?x] =>
    assert (H2 : ready c w x) by (revert H; apply ready_same; reflexivity);
    destruct (signalReason c x) end.
  - apply catchBlock_invariant, H2.
  - apply (setCont_invariant c w), H2.
Qed.

(** A call that is pending under the invariant is ready. *)
Lemma pending_ready c call s :
  formInvariant s -> calls s !! c = Some call -> isPending (c_cont call) = true ->
  ready c (c_word call) s.
Proof.
  intros (H1 & Hlow & Hnd) Hl Hp.
  destruct (H1 c call Hl Hp) as (Href & Hval & Hd & Hw).
  repeat split; try assumption; [|eauto].
  intros c' call' Hl' Hp'. destruct (H1 c' call' Hl' Hp') as (Href' & _). congruence.
Qed.

Lemma abortSignal_ready c w r s : ready c w s -> ready c w (abortSignal c r s).
Proof.
  intros (Honly & (call0 & Hc0 & Hw0) & Href & Hval & Hd & Hw & Hlow & Hnd).
  destruct (abortSignal_fields c r s) as (_ & Hr & Hv & _ & Hf & _).
  unfold ready. rewrite Hr, Hv, Hf. repeat split; try assumption.
  - intros c' call Hl Hp. destruct (Nat.eq_dec c c') as [<-|Hne]; [reflexivity|].
    rewrite abortSignal_lookup_ne in Hl by exact Hne. eapply Honly; eassumption.
  - destruct (c_reason call0) eqn:E.
    + exists call0. unfold abortSignal. rewrite Hc0, E. tauto.
    + eexists. rewrite (abortSignal_lookup _ _ _ _ Hc0 E). split; [reflexivity|exact Hw0].
Qed.

Lemma abortSignal_cont c r s c' call :
  calls (abortSignal c r s) !! c' = Some call ->
  exists call0, calls s !! c' = Some call0 /\ c_cont call0 = c_cont call.
Proof.
  destruct (Nat.eq_dec c c') as [<-|Hne].
  - unfold abortSignal. destruct (calls s !! c) as [call0|] eqn:E; [|rewrite E; discriminate].
    destruct (c_reason call0); [rewrite E; eauto|].
    cbn [calls setCalls]. rewrite list_lookup_insert_eq by apply (lookup_lt_Some _ _ _ E).
    intros H. injection H as <-. eauto.
  - rewrite abortSignal_lookup_ne by exact Hne. eauto.
Qed.

(** With no call pending, the state [validateWord] runs its checks in has
    none either. *)
Lemma entered_quiet word s c' call :
  (forall c0 call0, calls s !! c0 = Some call0 -> isPending (c_cont call0) = false) ->
  calls (entered word s) !! c' = Some call -> isPending (c_cont call) = false.
Proof.
  intros Hq Hl. unfold entered in Hl. cbn [calls setCalls] in Hl.
  set (s1 := match abortControllerRef s with
             | Some current => abortSignal current abortError s | None => s end) in *.
  assert (Hq1 : forall c0 call0, calls s1 !! c0 = Some call0 -> isPending (c_cont call0) = false).
  { subst s1. destruct (abortControllerRef s) as [current|]; [|exact Hq].
    intros c0 call0 H0. destruct (abortSignal_cont _ _ _ _ _ H0) as (call1 & H1 & <-).
    eapply Hq, H1. }
  apply lookup_app_Some in Hl as [Hl | [_ Hl]]; [eapply Hq1, Hl|].
  destruct (c' - List.length (calls s1))%nat as [|k]; [|destruct k; discriminate].
  injection Hl as <-. reflexivity.
Qed.

Lemma validateWord_invariant props word s :
  formInvariant s -> isValidating s = false ->
  formInvariant (validateWord props word s).
Proof.
  intros (H1 & Hlow & Hnd) Hval.
  assert (Hq : forall c0 call0, calls s !! c0 = Some call0 -> isPending (c_cont call0) = false).
  { intros c0 call0 Hl. destruct (isPending (c_cont call0)) eqn:E; [|reflexivity].
    destruct (H1 c0 call0 Hl E) as (_ & Hv & _). congruence. }
  destruct (entered_fields word s) as (_ & _ & Hf & _).
  rewrite validateWord_unfold.
  destruct (firstFailure _) as [check|] eqn:Hff.
  - split; [|cbn [foundWords trackEvent setErrorMessage]; rewrite Hf; split; assumption].
    intros c' call Hl Hp. cbn [calls trackEvent setErrorMessage] in Hl.
    rewrite (entered_quiet word s c' call Hq Hl) in Hp. discriminate.
  - apply checkDictionaryAPI_invariant.
    rewrite firstFailure_checks in Hff.
    assert (Hd : isDuplicate (Js.toLowerCase (Js.trim word)) (foundWords s) = false).
    { destruct (negb _); [discriminate|]. destruct (negb _); [discriminate|].
      destruct (isDuplicate _ _); [discriminate|reflexivity]. }
    unfold ready. cbn [calls foundWords abortControllerRef isValidating setIsValidating].
    rewrite Hf. repeat split; try assumption.
    + intros c' call Hl Hp. rewrite (entered_quiet word s c' call Hq Hl) in Hp. discriminate.
    + eexists. split; [apply entered_new_call|reflexivity].
    + unfold entered. cbn [abortControllerRef setCalls setRef].
      destruct (abortControllerRef s); [rewrite abortSignal_length|]; reflexivity.
    + apply toLowerCase_idempotent.
Qed.

(** The invariant goes through every task of a run through the form. *)
Lemma formStep_invariant props flag s e s' :
  formInvariant s -> formStep props flag s e = Some s' -> formInvariant s'.
Proof.
  intros Hinv. destruct e as [word|c o|c|dt]; cbn [formStep].
  - unfold handleSubmit.
    destruct (isValidating s) eqn:Hval; [cbn; intros H; injection H as <-; exact Hinv|].
    destruct (String.eqb _ _); [cbn; intros H; injection H as <-; exact Hinv|].
    cbn [orb]. unfold step.
    assert (Hnone : forall previous, rejectedByAbort previous s = None).
    { intros previous. unfold rejectedByAbort.
      destruct (calls s !! previous) as [call|] eqn:Hl; [|reflexivity].
      destruct (c_reason call); [reflexivity|].
      destruct (c_cont call) eqn:Hc; try reflexivity.
      destruct Hinv as (H1 & _).
      destruct (H1 previous call Hl) as (_ & Hv & _); [rewrite Hc; reflexivity|congruence]. }
    destruct (abortControllerRef s) as [previous|]; [rewrite Hnone|];
      intros H; injection H as <-; apply validateWord_invariant; assumption.
  - unfold step. destruct (calls s !! c) as [call|] eqn:Hl; [|discriminate].
    destruct (c_cont call) eqn:Hc; try discriminate.
    intros H. injection H as <-.
    assert (Hr : ready c (c_word call) s).
    { apply pending_ready; [exact Hinv|exact Hl|rewrite Hc; reflexivity]. }
    unfold resume. destruct (tryBlock o) as [[v|err] r].
    + apply applyResult_invariant. revert Hr. apply ready_same; reflexivity.
    + apply catchBlock_invariant, Hr.
  - unfold step. destruct (calls s !! c) as [call|] eqn:Hl; [|discriminate].
    destruct (c_cont call) as [|n [due|]|n due] eqn:Hc; try discriminate.
    + destruct (due <=? now s); [|discriminate].
      intros H. injection H as <-.
      assert (Hr : ready c (c_word call) s).
      { apply pending_ready; [exact Hinv|exact Hl|rewrite Hc; reflexivity]. }
      destruct flag; [|apply (setCont_invariant c (c_word call)), Hr].
      unfold rejectedByAbort. rewrite Hl, Hc.
      destruct (c_reason call); [apply (setCont_invariant c (c_word call)), Hr|].
      apply catchBlock_invariant, abortSignal_ready, Hr.
    + destruct (due <=? now s); [|discriminate].
      intros H. injection H as <-.
      apply checkDictionaryAPI_invariant, pending_ready;
        [exact Hinv|exact Hl|rewrite Hc; reflexivity].
  - unfold step. destruct (0 <=? dt); [|discriminate].
    intros H. injection H as <-. exact Hinv.
Qed.

Lemma formRun_invariant props flag es : forall s s',
  formInvariant s -> formRun props flag s es = Some s' -> formInvariant s'.
Proof.
  induction es as [|e es IH]; intros s s' Hinv H; cbn in H.
  - injection H as <-. exact Hinv.
  - destruct (formStep props flag s e) as [s1|] eqn:Hs; [|discriminate].
    eapply IH; [eapply formStep_invariant; eassumption|exact H].
Qed.

Lemma initialState_invariant : formInvariant initialState.
Proof.
  split; [|split; [intros w []|constructor]].
  intros c call H. destruct c; discriminate.
Qed.

(** The requests in flight, read off the calls. *)
Lemma omap_inFlight_length (f : nat -> Call -> nat * Call) (l : list Call) :
  (forall i x, snd (f i x) = x) ->
  (forall i i' x x', l !! i = Some x -> l !! i' = Some x' ->
     isAwaitFetch (c_cont x) = true -> isAwaitFetch (c_cont x') = true -> i = i') ->
  (List.length
     (omap (fun '(i, call) => if isAwaitFetch (c_cont call) then Some (i, c_word call) else None)
           (imap f l)) <= 1)%nat /\
  ((forall i x, l !! i = Some x -> isAwaitFetch (c_cont x) = false) ->
   omap (fun '(i, call) => if isAwaitFetch (c_cont call) then Some (i, c_word call) else None)
        (imap f l) = []).
Proof.
  revert f. induction l as [|x l IH]; intros f Hf Hone; [cbn; split; [lia|reflexivity]|].
  cbn [imap omap].
  destruct (IH (f ∘ S)) as (IH1 & IH2).
  { intros i y. apply Hf. }
  { intros i i' y y' Hi Hi' Hy Hy'.
    pose proof (Hone (S i) (S i') y y' Hi Hi' Hy Hy'). lia. }
  pose proof (Hf 0%nat x) as Hx. destruct (f 0%nat x) as [j y]. cbn in Hx. subst y.
  cbn [omap list_omap]. fold (@omap list _).
  split.
  - destruct (isAwaitFetch (c_cont x)) eqn:E; [|exact IH1].
    cbn [List.length].
    enough (H0 : forall A (k : list A), k = [] -> (S (List.length k) <= 1)%nat)
      by (apply H0, IH2; intros i y Hi; destruct (isAwaitFetch (c_cont y)) eqn:Ey;
          [specialize (Hone 0%nat (S i) x y eq_refl Hi E Ey); discriminate|reflexivity]).
    intros A k ->. cbn. lia.
  - intros Hnone. rewrite (Hnone 0%nat x eq_refl). apply IH2.
    intros i y Hi. apply (Hnone (S i) y Hi).
Qed.

(** X1.  When every submission comes through the form of [WordInput],
    whose [handleSubmit] ignores a submission while [isValidating] is set
    or when the input is blank, at most one request is in flight after
    any run of tasks, none when [isValidating] is not set, and the ref
    holds the controller of the call that has not returned. *)
Theorem form_keeps_one_request_in_flight props flag s es s' :
  formInvariant s ->
  formRun props flag s es = Some s' ->
  (List.length (inFlight s') <= 1)%nat /\
  (isValidating s' = false -> inFlight s' = []) /\
  (forall c call, calls s' !! c = Some call -> isPending (c_cont call) = true ->
     abortControllerRef s' = Some c /\ isValidating s' = true).
Proof.
  intros Hinv Hrun.
  pose proof (formRun_invariant props flag es _ _ Hinv Hrun) as (H1 & _).
  destruct (omap_inFlight_length pair (calls s')) as (Hlen & Hnil).
  { reflexivity. }
  { intros i i' x x' Hi Hi' Hx Hx'.
    assert (Hr : abortControllerRef s' = Some i).
    { apply (H1 i x Hi). destruct (c_cont x); try discriminate; reflexivity. }
    assert (Hr' : abortControllerRef s' = Some i').
    { apply (H1 i' x' Hi'). destruct (c_cont x'); try discriminate; reflexivity. }
    congruence. }
  split; [exact Hlen|]. split.
  - intros Hval. apply Hnil. intros i x Hi.
    destruct (c_cont x) eqn:Hc; try reflexivity.
    assert (Hv : isValidating s' = true) by (apply (H1 i x Hi); rewrite Hc; reflexivity).
    congruence.
  - intros c call Hl Hp. destruct (H1 c call Hl Hp) as (Hr & Hv & _). tauto.
Qed.

(** X1: the three submissions of C1 through the form. *)
Lemma form_keeps_one_request_in_flight_witness :
  exists s',
    formRun defaultProps false initialState threeSubmissions = Some s' /\
    inFlight s' = [(0%nat, "cabbage")] /\
    (List.length (inFlight s') <= 1)%nat.
Proof.
  eexists. split; [reflexivity|]. split; [reflexivity|].
  match goal with |- (List.length (inFlight ?x) <= 1)%nat =>
    apply (form_keeps_one_request_in_flight defaultProps false initialState
             threeSubmissions x initialState_invariant eq_refl) end.
Defined.

(** X2.  Through the form no word is accepted twice: after any run of
    tasks the words found are pairwise distinct and in lower case, and
    the word of the call that has not returned is not among them. *)
Theorem form_accepts_each_word_once props flag s es s' :
  formInvariant s ->
  formRun props flag s es = Some s' ->
  List.NoDup (foundWords s') /\
  (forall w, In w (foundWords s') -> Js.toLowerCase w = w) /\
  (forall c call, calls s' !! c = Some call -> isPending (c_cont call) = true ->
     ~ In (c_word call) (foundWords s')).
Proof.
  intros Hinv Hrun.
  pose proof (formRun_invariant props flag es _ _ Hinv Hrun) as (H1 & Hlow & Hnd).
  split; [exact Hnd|]. split; [exact Hlow|].
  intros c call Hl Hp. destruct (H1 c call Hl Hp) as (_ & _ & Hd & _).
  apply isDuplicate_not_In; assumption.
Qed.

(** X2: the retry of C2 through the form. *)
Lemma form_accepts_each_word_once_witness :
  exists s',
    formRun defaultProps false initialState
      [Submit "cabbage"; Settle 0 failedToFetch; Submit "cabbage"; Elapse 1000; Fire 0;
       Settle 0 (okResponse [Some "cabbage"]); Submit "Cabbage"] = Some s' /\
    foundWords s' = ["cabbage"] /\
    fetched s' = [(0%nat, "cabbage"); (0%nat, "cabbage")] /\
    List.NoDup (foundWords s').
Proof.
  eexists. split; [vm_compute; reflexivity|]. split; [reflexivity|]. split; [reflexivity|].
  match goal with |- List.NoDup (foundWords ?x) =>
    apply (form_accepts_each_word_once defaultProps false initialState
             [Submit "cabbage"; Settle 0 failedToFetch; Submit "cabbage"; Elapse 1000; Fire 0;
              Settle 0 (okResponse [Some "cabbage"]); Submit "Cabbage"]
             x initialState_invariant) end.
  vm_compute. reflexivity.
Defined.

(** ** Clues *)

Lemma filter_length_mono {A} (f g : A -> bool) (l : list A) :
  (forall a, f a = true -> g a = true) ->
  (List.length (List.filter f l) <= List.length (List.filter g l))%nat.
Proof.
  intros H. induction l as [|a l IH]; [reflexivity|]. cbn.
  destruct (f a) eqn:Hf; [rewrite (H a Hf); cbn; lia|].
  destruct (g a); cbn; lia.
Qed.

Lemma thresholdsReached_monotone x y :
  (x <= y)%Q -> (thresholdsReached x <= thresholdsReached y)%nat.
Proof.
  intros H. apply filter_length_mono. intros t Ht.
  apply Qle_bool_iff. apply Qle_bool_iff in Ht. eapply Qle_trans; eassumption.
Qed.

Lemma thresholdsReached_at_most_four x : (thresholdsReached x <= 4)%nat.
Proof.
  unfold thresholdsReached.
  etransitivity; [apply List.filter_length_le|]. reflexivity.
Qed.

Lemma thresholdsReached_zero x : (x <= 0)%Q -> thresholdsReached x = 0%nat.
Proof.
  intros H. unfold thresholdsReached, TRIVIA_UNLOCK_THRESHOLDS. cbn [List.filter].
  repeat match goal with
         | |- context [Qle_bool ?t x] =>
             let E := fresh in
             destruct (Qle_bool t x) eqn:E;
               [apply Qle_bool_iff in E; exfalso;
                assert (Hc : (t <= 0)%Q) by (eapply Qle_trans; eassumption);
                revert Hc; unfold Qle; cbn; lia|]
         end.
  reflexivity.
Qed.

(** X10.  The number of unlocked clues never goes down as words are
    accepted and is at most four; it is 0, with no event tracked, as long
    as no word is found and for a puzzle without valid words. *)
Theorem unlockedCluesCount_monotone foundWords more puzzleData :
  let before := fst (unlockedCluesCount foundWords puzzleData) in
  let after := fst (unlockedCluesCount (foundWords ++ more) puzzleData) in
  (before <= after <= 4)%nat /\
  unlockedCluesCount [] puzzleData = (0%nat, None) /\
  (forall data, puzzleData = Some data -> validWords data = [] ->
     unlockedCluesCount foundWords puzzleData = (0%nat, None)).
Proof.
  cbv zeta. split; [|split].
  - destruct puzzleData as [data|]; cbn [unlockedCluesCount fst]; [|lia].
    split; [|apply thresholdsReached_at_most_four].
    apply thresholdsReached_monotone, progress_monotone_in_length.
    rewrite length_app. lia.
  - destruct puzzleData as [data|]; [|reflexivity].
    unfold unlockedCluesCount.
    assert (H0 : thresholdsReached (progress [] (Some data)) = 0%nat).
    { apply thresholdsReached_zero. unfold progress.
      destruct (List.length (validWords data) =? 0)%nat; [apply Qle_refl|].
      cbn [List.length Z.of_nat]. unfold Qdiv. rewrite Qmult_0_l. apply Qle_refl. }
    rewrite H0. reflexivity.
  - intros data -> Hempty. unfold unlockedCluesCount.
    assert (H0 : thresholdsReached (progress foundWords (Some data)) = 0%nat).
    { apply thresholdsReached_zero. unfold progress. rewrite Hempty. apply Qle_refl. }
    rewrite H0. reflexivity.
Qed.

(** With a puzzle that has valid words, the count for one word fewer that
    the event compares with is the count of clues before the last word. *)
Lemma before_is_previous_count foundWords w data :
  validWords data <> [] ->
  List.length
    (List.filter (quotientAtLeast (Z.of_nat (List.length (foundWords ++ [w])) - 1)
                                  (Z.of_nat (List.length (validWords data))))
                 TRIVIA_UNLOCK_THRESHOLDS)
  = thresholdsReached (progress foundWords (Some data)).
Proof.
  intros Hne. unfold thresholdsReached.
  f_equal. apply filter_ext. intros t.
  unfold quotientAtLeast, progress.
  destruct (validWords data) as [|v vs]; [congruence|].
  cbn [List.length Nat.eqb].
  replace (Z.of_nat (S (List.length vs)) =? 0) with false by (symmetry; apply Z.eqb_neq; lia).
  rewrite length_app. cbn [List.length].
  replace (Z.of_nat (List.length foundWords + 1) - 1) with (Z.of_nat (List.length foundWords))
    by lia.
  reflexivity.
Qed.

(** X11.  For a puzzle with valid words the clue event is tracked for an
    accepted word exactly when that word raises the number of unlocked
    clues, and it carries the new number (so a word that crosses two
    thresholds tracks one event, for the higher clue). *)
Theorem clue_event_on_crossing foundWords w data :
  validWords data <> [] ->
  let before := fst (unlockedCluesCount foundWords (Some data)) in
  let count := fst (unlockedCluesCount (foundWords ++ [w]) (Some data)) in
  let event := snd (unlockedCluesCount (foundWords ++ [w]) (Some data)) in
  (event <> None <-> (before < count)%nat) /\
  (forall e, event = Some e ->
     label e = "Clue " ++ Js.ofNumber (Z.of_nat count) /\ value e = Some (Z.of_nat count)).
Proof.
  intros Hne. cbv zeta.
  cbn [unlockedCluesCount fst snd].
  rewrite (before_is_previous_count foundWords w data Hne).
  destruct (Nat.ltb_spec (thresholdsReached (progress foundWords (Some data)))
              (thresholdsReached (progress (foundWords ++ [w]) (Some data)))) as [Hlt|Hge].
  - split; [split; [intros _; exact Hlt|discriminate]|].
    intros e He. injection He as <-. split; reflexivity.
  - split; [split; [congruence|lia]|]. discriminate.
Qed.

(** X11: the first of two words crosses two thresholds. *)
Lemma clue_event_on_crossing_witness :
  snd (unlockedCluesCount ["cabbage"] (Some smallPuzzle)) <> None.
Proof.
  apply (clue_event_on_crossing [] "cabbage" smallPuzzle); [discriminate|].
  vm_compute. lia.
Defined.

(** ** [TriviaClue] *)

(** X12.  [TriviaClue] shows the clue at [index] unlocked exactly when
    the index is below both the progress handed in and the number of
    clues; with the count [AppContent] hands in, a fifth or later clue is
    never unlocked. *)
Theorem clue_unlocked_iff index triviaProgress triviaClues :
  (isUnlocked index triviaProgress triviaClues = true
   <-> Z.of_nat index < triviaProgress /\ (index < List.length triviaClues)%nat) /\
  (forall foundWords puzzleData,
     (4 <= index)%nat ->
     isUnlocked index (Z.of_nat (fst (unlockedCluesCount foundWords puzzleData))) triviaClues
       = false) /\
  0 <= safeProgress triviaProgress triviaClues <= Z.of_nat (List.length triviaClues).
Proof.
  unfold isUnlocked, safeProgress. split; [|split].
  - rewrite Z.ltb_lt. lia.
  - intros foundWords puzzleData Hi. apply Z.ltb_ge.
    assert (H : (fst (unlockedCluesCount foundWords puzzleData) <= 4)%nat).
    { destruct puzzleData; cbn [unlockedCluesCount fst];
        [apply thresholdsReached_at_most_four|lia]. }
    lia.
  - lia.
Qed.

(** ** The final question *)

Lemma Rendered_completed t p :
  triviaCompleted t = true -> finalTriviaEffect p t = t.
Proof.
  intros H. unfold finalTriviaEffect. rewrite H, andb_false_r. reflexivity.
Qed.

(** X13.  Once the final question is answered it is never shown again:
    whatever renders, button presses or answers follow, [showFinalTrivia]
    stays off and [triviaCompleted] on, and the effect changes nothing. *)
Theorem final_trivia_one_shot t es :
  let done := triviaStep t TriviaComplete in
  let later := fold_left triviaStep es done in
  showFinalTrivia later = false /\ triviaCompleted later = true /\
  (forall p, finalTriviaEffect p later = later).
Proof.
  cbv zeta.
  assert (H : forall t0, showFinalTrivia t0 = false -> triviaCompleted t0 = true ->
            showFinalTrivia (fold_left triviaStep es t0) = false /\
            triviaCompleted (fold_left triviaStep es t0) = true).
  { induction es as [|e es IH]; intros t0 Hs Hc; [cbn; tauto|].
    cbn [fold_left]. apply IH; destruct e as [p| |]; cbn [triviaStep];
      rewrite ?(Rendered_completed t0 p Hc); auto. }
  destruct (H (triviaStep t TriviaComplete) eq_refl eq_refl) as (Hs & Hc).
  split; [exact Hs|]. split; [exact Hc|].
  intros p. apply Rendered_completed, Hc.
Qed.

(** X14.  While the progress is at the final threshold and the question
    is not answered, the button that closes it does not keep it closed:
    the effect of the next render shows it again and tracks the event
    once more. *)
Theorem final_trivia_reopens t p :
  Qle_bool FINAL_TRIVIA_THRESHOLD p = true ->
  triviaCompleted t = false ->
  let closed := triviaStep t ContinuePlaying in
  let rendered := triviaStep closed (Rendered p) in
  showFinalTrivia closed = false /\
  showFinalTrivia rendered = true /\
  List.length (triviaTracked rendered) = S (List.length (triviaTracked t)).
Proof.
  intros Hp Hc. cbn [triviaStep]. unfold finalTriviaEffect, continuePlaying.
  cbn [showFinalTrivia triviaCompleted]. rewrite Hp, Hc. cbn.
  rewrite length_app. cbn. repeat split; lia.
Qed.

(** X14: closed and shown again. *)
Lemma final_trivia_reopens_witness :
  showFinalTrivia
    (triviaStep
       (triviaStep {| showFinalTrivia := true; triviaCompleted := false;
                      premium := {| playedPuzzles := 0; purchasedCredits := 0 |};
                      triviaTracked := [] |} ContinuePlaying)
       (Rendered 1)) = true.
Proof.
  exact (proj1 (proj2 (final_trivia_reopens
    {| showFinalTrivia := true; triviaCompleted := false;
       premium := {| playedPuzzles := 0; purchasedCredits := 0 |};
       triviaTracked := [] |} 1 eq_refl eq_refl))).
Defined.

(** ** Access and credits *)









